(** * meet-teams-bot: the media process supervisor and the S3 uploader

    A shallow embedding of [src/media_context.ts] (the abstract class
    [MediaContext] and its two derived classes [SoundContext] and
    [VideoContext]) and of [src/utils/S3Uploader.ts], with the properties
    the specification states about them.

    The TypeScript code runs on a single JavaScript thread.  A method call
    or an event handler runs to completion; the continuation of an [await]
    runs as a microtask once the call stack is empty.  The model keeps that
    structure: the methods are state transformers over a [World] that hold
    the two private fields of [MediaContext] and the objects the [execute]
    calls created; process events and microtask checkpoints are [Event]s. *)

From Stdlib Require Import ZArith Ascii String List Bool Lia DecimalString.
From stdpp Require Import base list strings.
Import ListNotations.
Local Open Scope string_scope.
Local Open Scope list_scope.

(** String concatenation, as in a template literal. *)
Infix "+++" := String.append (at level 60, right associativity).

(** ** JavaScript values used by the two files *)

Module Js.

(** [`${n}`] for an integer. *)
Definition string_of_Z (n : Z) : string :=
  NilZero.string_of_int (Z.to_int n).

(** [`${code}`] for [number | null]. *)
Definition string_of_code (code : option Z) : string :=
  match code with
  | Some n => string_of_Z n
  | None => "null"
  end.

(** [`${b}`] for a boolean. *)
Definition string_of_bool (b : bool) : string :=
  if b then "true" else "false".

(** Truthiness of a string: the empty string is falsy. *)
Definition truthy (s : string) : bool :=
  negb (String.eqb s EmptyString).

(** [process.env.X || dflt]: an unset or empty variable gives [dflt]. *)
Definition env_or (v : option string) (dflt : string) : string :=
  match v with
  | Some s => if truthy s then s else dflt
  | None => dflt
  end.

(** [code == 0] for [code : number | null]; [null == 0] is false. *)
Definition loose_eq_zero (code : option Z) : bool :=
  match code with
  | Some n => Z.eqb n 0
  | None => false
  end.

(** [code === 0]. *)
Definition strict_eq_zero (code : option Z) : bool :=
  match code with
  | Some n => Z.eqb n 0
  | None => false
  end.

(** [a || b] on strings. *)
Definition str_or (a b : string) : string :=
  if truthy a then a else b.

(** [xs.join(' ')]. *)
Definition join_space (xs : list string) : string :=
  String.concat " " xs.

(** [s.trim()], for the white space of ASCII. *)
Fixpoint trim_start (s : string) : string :=
  match s with
  | EmptyString => EmptyString
  | String c rest => if Ascii.is_space c then trim_start rest else s
  end.

Definition trim (s : string) : string :=
  String.rev (trim_start (String.rev (trim_start s))).

(** [s.split(' ')]: every space separates, so two spaces in a row give an
    empty element, and the empty string gives one empty element. *)
Fixpoint split_space_aux (cur : string) (s : string) : list string :=
  match s with
  | EmptyString => [cur]
  | String c rest =>
      if Ascii.eqb c " "%char
      then cur :: split_space_aux EmptyString rest
      else split_space_aux (cur +++ String c EmptyString) rest
  end.

Definition split_space (s : string) : list string :=
  split_space_aux EmptyString s.

(** [emitter.removeListener(ev, l)] removes at most one instance of [l],
    the most recently added one. *)
Fixpoint remove_first (l : nat) (xs : list nat) : list nat :=
  match xs with
  | [] => []
  | x :: rest => if Nat.eqb x l then rest else x :: remove_first l rest
  end.

Definition remove_listener (l : nat) (xs : list nat) : list nat :=
  rev (remove_first l (rev xs)).

(** [s] without the prefix [p], when [s] starts with [p]: a literal at the
    current position of a regular expression. *)
Fixpoint strip_prefix (p s : string) : option string :=
  match p, s with
  | EmptyString, _ => Some s
  | String a p', String b s' =>
      if Ascii.eqb a b then strip_prefix p' s' else None
  | String _ _, EmptyString => None
  end.

(** The longest run of characters of a class at the start of [s], and the
    rest: a greedy [c*]. *)
Fixpoint span (c : ascii -> bool) (s : string) : string * string :=
  match s with
  | EmptyString => (EmptyString, EmptyString)
  | String a rest =>
      if c a then
        let '(run, tail) := span c rest in (String a run, tail)
      else (EmptyString, s)
  end.

(** The classes [\s], [\d] and [[\d.]] on ASCII text. *)
Definition is_digit (a : ascii) : bool :=
  (48 <=? nat_of_ascii a)%nat && (nat_of_ascii a <=? 57)%nat.

Definition is_digit_or_dot (a : ascii) : bool :=
  is_digit a || Ascii.eqb a "."%char.

(** [c+] then the rest of the pattern [k]: the classes below are followed
    by a character outside them, so the greedy run is the only match. *)
Definition plus (c : ascii -> bool) (k : string -> bool) (s : string) : bool :=
  match span c s with
  | (String _ _, tail) => k tail
  | (EmptyString, _) => false
  end.

Definition star (c : ascii -> bool) (k : string -> bool) (s : string) : bool :=
  k (snd (span c s)).

Definition lit (p : string) (k : string -> bool) (s : string) : bool :=
  match strip_prefix p s with
  | Some tail => k tail
  | None => false
  end.

End Js.

(** ** media_context.ts *)

Module Media.

(** A child process is named by the index of the [execute] call that
    spawned it.  That call also created the two listener closures, the
    promise and the two event handlers, so they carry the same index. *)
Abbreviation pid := nat (only parsing).

Inductive stream := Stdout | Stderr.

(** The three functions passed as [after]: [this.default] of each derived
    class and the arrow function of [play_stdin]. *)
Inductive callback :=
| SoundDefault
| VideoDefault
| StdinSequenceEnded.

(** State of a [Promise<number>]. *)
Inductive settlement :=
| Pending
| Fulfilled (code : option Z)
| Rejected (err : string).

Definition is_settled (s : settlement) : bool :=
  match s with
  | Pending => false
  | _ => true
  end.

(** What one spawning [execute] call created: the [ChildProcess] with the
    'data' listeners of its two output streams, the promise, and the
    [after] its exit handler captured.  [exited] is set when the runtime
    has emitted 'exit' for the child. *)
Record Activation := mkActivation {
  spawnargs : list string;
  stdout_listeners : list nat;
  stderr_listeners : list nat;
  signals : list string;
  exited : bool;
  completion : settlement;
  after : callback
}.

(** The fields [this.process] and [this.promise], the objects created so
    far, and the [stop_process] calls suspended at their [await], each
    with the promise it awaits. *)
Record World := mkWorld {
  process : option pid;
  promise : option pid;
  spawned : list Activation;
  stopping : list pid
}.

(** [new SoundContext(..)] / [new VideoContext(..)]: the constructor of
    [MediaContext]. *)
Definition constructor : World :=
  {| process := None; promise := None; spawned := []; stopping := [] |}.

(** Which derived class a controller is. *)
Inductive Channel := Sound | Video.

(** What a run leaves behind, in order: the console output, the calls
    made on children and promises, the writes of the two fields, and the
    entries of [play] and of [after] (which the program does not log but
    the properties speak about). *)
Inductive Effect :=
| Called (c : Channel) (pathname : string) (loop : bool)
| Thrown (e : string)
| Warn (msg : string)
| Log (msg : string)
| ConsoleError (msg : string)
| Spawn (p : pid) (command : string) (args : list string)
| AddListener (p : pid) (s : stream) (l : nat)
| RemoveListener (p : pid) (s : stream) (l : nat)
| SetProcess (v : option pid)
| SetPromise (v : option pid)
| CallAfter (c : callback)
| Resolve (k : pid) (code : option Z)
| Reject (k : pid) (err : string)
| Kill (p : pid) (sig : string).

(** How a call ends: it returns a value or throws. *)
Inductive Completion (A : Type) :=
| Normal (a : A)
| Throws (e : string).
Arguments Normal {A} a.
Arguments Throws {A} e.

(** A method body: reads and writes the world, leaves a trace of what it
    did, in order, and returns or throws. *)
Definition M (A : Type) : Type := World -> Completion A * World * list Effect.

Definition ret {A} (a : A) : M A := fun w => (Normal a, w, []).

Definition bind {A B} (c : M A) (k : A -> M B) : M B :=
  fun w =>
    match c w with
    | (Normal a, w1, t1) =>
        match k a w1 with
        | (r, w2, t2) => (r, w2, t1 ++ t2)
        end
    | (Throws e, w1, t1) => (Throws e, w1, t1)
    end.

Notation "'let*' x ':=' c 'in' k" := (bind c (fun x => k))
  (at level 10, x pattern, c at level 99, k at level 200).
Notation "c ';;' k" := (bind c (fun _ => k))
  (at level 100, k at level 200, right associativity).

Definition throw {A} (e : string) : M A := fun w => (Throws e, w, []).
Definition emit (e : Effect) : M unit := fun w => (Normal tt, w, [e]).
Definition get : M World := fun w => (Normal w, w, []).
Definition put (w : World) : M unit := fun _ => (Normal tt, w, []).

Definition world_of {A} (r : Completion A * World * list Effect) : World :=
  snd (fst r).
Definition trace_of {A} (r : Completion A * World * list Effect) : list Effect :=
  snd r.
Definition result_of {A} (r : Completion A * World * list Effect) : Completion A :=
  fst (fst r).

(** *** Field and object updates *)

Definition set_process (v : option pid) : M unit :=
  let* w := get in
  put {| process := v; promise := promise w;
         spawned := spawned w; stopping := stopping w |} ;;
  emit (SetProcess v).

Definition set_promise (v : option pid) : M unit :=
  let* w := get in
  put {| process := process w; promise := v;
         spawned := spawned w; stopping := stopping w |} ;;
  emit (SetPromise v).

Definition set_spawned (l : list Activation) : M unit :=
  let* w := get in
  put {| process := process w; promise := promise w;
         spawned := l; stopping := stopping w |}.

Definition set_stopping (l : list pid) : M unit :=
  let* w := get in
  put {| process := process w; promise := promise w;
         spawned := spawned w; stopping := l |}.

(** Update of the object [p] in place. *)
Definition modify (p : pid) (f : Activation -> Activation) : M unit :=
  let* w := get in
  set_spawned (alter f p (spawned w)).

Definition with_listeners (s : stream) (f : list nat -> list nat)
    (a : Activation) : Activation :=
  match s with
  | Stdout =>
      {| spawnargs := spawnargs a; stdout_listeners := f (stdout_listeners a);
         stderr_listeners := stderr_listeners a; signals := signals a;
         exited := exited a; completion := completion a; after := after a |}
  | Stderr =>
      {| spawnargs := spawnargs a; stdout_listeners := stdout_listeners a;
         stderr_listeners := f (stderr_listeners a); signals := signals a;
         exited := exited a; completion := completion a; after := after a |}
  end.

Definition with_completion (c : settlement) (a : Activation) : Activation :=
  {| spawnargs := spawnargs a; stdout_listeners := stdout_listeners a;
     stderr_listeners := stderr_listeners a; signals := signals a;
     exited := exited a; completion := c; after := after a |}.

Definition with_signal (sig : string) (a : Activation) : Activation :=
  {| spawnargs := spawnargs a; stdout_listeners := stdout_listeners a;
     stderr_listeners := stderr_listeners a; signals := signals a ++ [sig];
     exited := exited a; completion := completion a; after := after a |}.

Definition with_exited (a : Activation) : Activation :=
  {| spawnargs := spawnargs a; stdout_listeners := stdout_listeners a;
     stderr_listeners := stderr_listeners a; signals := signals a;
     exited := true; completion := completion a; after := after a |}.

Definition listeners (s : stream) (a : Activation) : list nat :=
  match s with
  | Stdout => stdout_listeners a
  | Stderr => stderr_listeners a
  end.

(** [this.process.<member>]: reading a member of [this.process] throws a
    TypeError when the field holds [null]. *)
Definition TypeError : string :=
  "TypeError: Cannot read properties of null".

Definition this_process : M pid :=
  let* w := get in
  match process w with
  | Some p => ret p
  | None => throw TypeError
  end.

(** [this.process.stdout.addListener('data', l)] and the like. *)
Definition addListener (s : stream) (l : nat) : M unit :=
  let* p := this_process in
  modify p (with_listeners s (fun xs => xs ++ [l])) ;;
  emit (AddListener p s l).

Definition removeListener (s : stream) (l : nat) : M unit :=
  let* p := this_process in
  modify p (with_listeners s (Js.remove_listener l)) ;;
  emit (RemoveListener p s l).

(** [resolve(code)] and [reject(err)] of the promise [k]: a promise
    settles once, later calls change nothing. *)
Definition settle (k : pid) (c : settlement) : M unit :=
  modify k (fun a =>
    match completion a with
    | Pending => with_completion c a
    | _ => a
    end).

Definition resolve (k : pid) (code : option Z) : M unit :=
  settle k (Fulfilled code) ;; emit (Resolve k code).

Definition reject (k : pid) (err : string) : M unit :=
  settle k (Rejected err) ;; emit (Reject k err).

(** [spawn('ffmpeg', args, ..)]: a new child with no listener yet. *)
Definition spawn (args : list string) (cb : callback) : M pid :=
  let* w := get in
  let k := length (spawned w) in
  set_spawned (spawned w ++
    [{| spawnargs := args; stdout_listeners := []; stderr_listeners := [];
        signals := []; exited := false; completion := Pending;
        after := cb |}]) ;;
  emit (Spawn k "ffmpeg" args) ;;
  ret k.

(** *** The two 'data' listeners [execute] makes

    [data.toString()] is the ASCII text [ffmpeg] prints.  The pattern of
    the progress lines is
    [/^frame=\s*\d+\s+fps=\s*[\d.]+\s+q=/]. *)
Definition progress_line (output : string) : bool :=
  Js.lit "frame=" (Js.star Ascii.is_space (Js.plus Js.is_digit
    (Js.plus Ascii.is_space (Js.lit "fps=" (Js.star Ascii.is_space
      (Js.plus Js.is_digit_or_dot (Js.plus Ascii.is_space
        (Js.lit "q=" (fun _ => true))))))))) output.

Definition stdoutListener (data : string) : list Effect :=
  [Log ("[ffmpeg stdout] " +++ data)].

Definition stderrListener (data : string) : list Effect :=
  let output := data in
  if Js.truthy (Js.trim output) && negb (progress_line output)
  then [Log ("[ffmpeg stderr] " +++ output)]
  else [].

(** *** MediaContext.execute *)

Definition execute (args : list string) (cb : callback) : M (option pid) :=
  let* w := get in
  match process w with
  | Some _ =>
      emit (Warn "Already on execution") ;;
      ret None
  | None =>
      let* k := spawn args cb in
      set_process (Some k) ;;
      addListener Stdout k ;;
      addListener Stderr k ;;
      set_promise (Some k) ;;
      let* w' := get in
      ret (process w')
  end.

(** *** MediaContext.stop_process

    The body up to the [await]: either the call returns at once, or it
    has signalled the child and waits for the promise [q]. *)
Inductive stop_state :=
| StopReturned
| StopAwaiting (q : pid).

(** [child.kill(sig)] answers [true] when the child has not exited. *)
Definition kill (p : pid) (sig : string) : M bool :=
  let* w := get in
  modify p (with_signal sig) ;;
  emit (Kill p sig) ;;
  ret (match spawned w !! p with
       | Some a => negb (exited a)
       | None => false
       end).

Definition stop_process : M stop_state :=
  let* w := get in
  match process w with
  | None =>
      emit (Warn "Already stoped") ;;
      ret StopReturned
  | Some p =>
      let* res := kill p "SIGTERM" in
      emit (Log ("Signal sended to process : " +++ Js.string_of_bool res)) ;;
      let* w' := get in
      match promise w' with
      | None => throw TypeError
      | Some q =>
          set_stopping (stopping w' ++ [q]) ;;
          ret (StopAwaiting q)
      end
  end.

(** The rest of the body, run when the awaited promise has settled (it
    is not run while the promise is pending): the [then] or the [catch]
    callback, then the [finally] callback. *)
Definition stop_resume (outcome : settlement) : M unit :=
  match outcome with
  | Fulfilled code =>
      emit (Log ("process exited with code " +++ Js.string_of_code code))
  | Rejected err =>
      emit (Log ("process exited with error " +++ err))
  | Pending => ret tt
  end ;;
  set_process None ;;
  set_promise None.

(** A [stop_process] call resolves either at once, on an idle
    supervisor, or when its continuation has run on a settled promise:
    [resolved_stop w path w'] says that the last step of a call, made
    in the world [w] along [path], leaves the world [w']. *)
Inductive stop_path :=
| AlreadyIdle
| Awaited (outcome : settlement).

Inductive resolved_stop (w : World) : stop_path -> World -> Prop :=
| resolved_idle w' t :
    stop_process w = (Normal StopReturned, w', t) ->
    resolved_stop w AlreadyIdle w'
| resolved_awaited outcome :
    is_settled outcome = true ->
    resolved_stop w (Awaited outcome) (world_of (stop_resume outcome w)).

(** *** The environment of a controller

    What a controller is built in: two variables of [process.env], the
    file system as [fs.existsSync] sees it, the derived class and the
    constructor argument of [SoundContext]. *)
Record Config := mkConfig {
  VIRTUAL_MIC : option string;
  VIDEO_DEVICE : option string;
  existsSync : string -> bool;
  channel : Channel;
  sampleRate : Z
}.

Definition MICRO_DEVICE (cfg : Config) : string :=
  "pulse:" +++ Js.env_or (VIRTUAL_MIC cfg) "virtual_mic".

Definition CAMERA_DEVICE (cfg : Config) : string :=
  Js.env_or (VIDEO_DEVICE cfg) "/dev/video10".

(** *** class SoundContext *)

Module SoundContext.

Definition play (cfg : Config) (pathname : string) (loop : bool) : M unit :=
  emit (Called Sound pathname loop) ;;
  let args := (if loop then ["-stream_loop"; "-1"] else []) ++
              ["-re"; "-i"; pathname; "-f"; "alsa"; "-acodec"; "pcm_s16le";
               MICRO_DEVICE cfg] in
  execute args SoundDefault ;;
  ret tt.

(** [SoundContext.instance] is the controller itself, the one instance its
    class has. *)
Definition default (cfg : Config) : M unit :=
  play cfg "../silence.opus" false.

(** The handle returned is the [stdin] of the child, named by the child. *)
Definition play_stdin (cfg : Config) : M pid :=
  let args := ["-f"; "f32le"; "-ar"; Js.string_of_Z (sampleRate cfg); "-ac"; "1";
               "-i"; "-"; "-f"; "alsa"; "-acodec"; "pcm_s16le";
               MICRO_DEVICE cfg] in
  let* r := execute args StdinSequenceEnded in
  match r with
  | Some p => ret p
  | None => throw TypeError
  end.

(** The body of [stop] up to its [await]. *)
Definition stop : M stop_state := stop_process.

End SoundContext.

(** *** class VideoContext *)

Module VideoContext.

Definition play (cfg : Config) (pathname : string) (loop : bool) : M unit :=
  emit (Called Video pathname loop) ;;
  if negb (existsSync cfg pathname) then
    emit (Log ("Video file not found: " +++ pathname))
  else
    let args := (if loop then ["-stream_loop"; "-1"] else []) ++
                ["-re"; "-i"; pathname; "-f"; "v4l2"; "-vcodec"; "mjpeg";
                 "-q:v"; "5"; "-threads"; "0"; CAMERA_DEVICE cfg] in
    execute args VideoDefault ;;
    ret tt.

(** [VideoContext.instance] is the controller itself as well. *)
Definition default (cfg : Config) : M unit :=
  play cfg "../branding.mjpeg" true.

(** The body of [stop] up to its [await]. *)
Definition stop : M stop_state := stop_process.

End VideoContext.

(** *** The exit and error handlers registered by [execute]

    The handlers of the [k]-th [execute] call captured its two listeners,
    its [resolve]/[reject] and its [after]; [this.process] is not captured
    but read from the field each time it is used. *)

(** Calling [after()]. *)
Definition call_after (cfg : Config) (cb : callback) : M unit :=
  emit (CallAfter cb) ;;
  match cb with
  | SoundDefault => SoundContext.default cfg
  | VideoDefault => VideoContext.default cfg
  | StdinSequenceEnded => emit (Warn "[play_stdin] Sequence ended")
  end.

(** The 'exit' handler of the [k]-th call. *)
Definition exit_handler (cfg : Config) (k : pid) (cb : callback)
    (code : option Z) : M unit :=
  emit (Log ("process exited with code " +++ Js.string_of_code code)) ;;
  removeListener Stdout k ;;
  removeListener Stderr k ;;
  (if Js.loose_eq_zero code
   then set_process None ;; call_after cfg cb
   else ret tt) ;;
  resolve k code.

(** The 'error' handler of the [k]-th call. *)
Definition error_handler (k : pid) (err : string) : M unit :=
  emit (ConsoleError err) ;;
  removeListener Stdout k ;;
  removeListener Stderr k ;;
  reject k err.

(** *** The event loop

    A microtask checkpoint resumes, in the order of their calls, the
    suspended [stop_process] calls whose promise has settled. *)
Fixpoint resume_settled (qs : list pid) : M (list pid) :=
  match qs with
  | [] => ret []
  | q :: rest =>
      let* w := get in
      match completion <$> spawned w !! q with
      | Some Pending | None =>
          let* still := resume_settled rest in
          ret (q :: still)
      | Some outcome =>
          stop_resume outcome ;;
          resume_settled rest
      end
  end.

Definition drain : M unit :=
  let* w := get in
  let* still := resume_settled (stopping w) in
  set_stopping still.

(** An exception ends the current task; the trace keeps it and the
    loop goes on with the world as the task left it. *)
Definition task {A} (c : M A) : M unit :=
  fun w =>
    match c w with
    | (Normal _, w1, t) => (Normal tt, w1, t)
    | (Throws e, w1, t) => (Normal tt, w1, t ++ [Thrown e])
    end.

(** The abstract method [play]. *)
Definition play (cfg : Config) (pathname : string) (loop : bool) : M unit :=
  match channel cfg with
  | Sound => SoundContext.play cfg pathname loop
  | Video => VideoContext.play cfg pathname loop
  end.

(** What can happen to a controller: a call of one of its public
    methods ([play_stdin] exists on [SoundContext] only), the end of the
    current synchronous run, and the events of a child.  The runtime
    emits 'exit' once per child, and runs the pending microtasks before
    and after a handler. *)
Inductive Event :=
| CallPlay (pathname : string) (loop : bool)
| CallPlayStdin
| CallStop
| Tick
| OnExit (k : pid) (code : option Z)
| OnError (k : pid) (err : string).

Definition step (cfg : Config) (ev : Event) : M unit :=
  match ev with
  | CallPlay pathname loop => task (play cfg pathname loop)
  | CallPlayStdin =>
      match channel cfg with
      | Sound => task (SoundContext.play_stdin cfg)
      | Video => ret tt
      end
  | CallStop => task stop_process
  | Tick => drain
  | OnExit k code =>
      drain ;;
      (let* w := get in
       match spawned w !! k with
       | Some a =>
           if exited a then ret tt
           else modify k with_exited ;;
                task (exit_handler cfg k (after a) code)
       | None => ret tt
       end) ;;
      drain
  | OnError k err =>
      drain ;;
      (let* w := get in
       match spawned w !! k with
       | Some _ => task (error_handler k err)
       | None => ret tt
       end) ;;
      drain
  end.

Fixpoint run (cfg : Config) (evs : list Event) : M unit :=
  match evs with
  | [] => ret tt
  | ev :: rest => step cfg ev ;; run cfg rest
  end.

(** The worlds a controller can be in. *)
Definition reachable (cfg : Config) (w : World) : Prop :=
  exists evs, world_of (run cfg evs constructor) = w.

End Media.

(** ** utils/S3Uploader.ts *)

Module S3.

(** [GLOBAL.get().remote], of type [MeetingParams['remote']]. *)
Record Remote := mkRemote {
  s3_args : list string;
  api_server_baseurl : string;
  aws_s3_video_bucket : string;
  aws_s3_log_bucket : string;
  aws_s3_public : option bool
}.

(** What the uploader reads of [GLOBAL], whose module [../singleton] is
    not among the sources: the serverless flag and the [remote] field of
    the meeting parameters. *)
Record Global := mkGlobal {
  isServerless : bool;
  remote : option Remote
}.

(** What the [aws] child does once spawned: the events it emits, in
    order. *)
Inductive AwsEvent :=
| StdoutData (data : string)
| StderrData (data : string)
| ProcessError (message : string)
| Close (code : option Z).

(** The environment: two variables of [process.env], which paths
    [fs.promises.access] accepts, and the run of [aws] on given
    arguments. *)
Record Env := mkEnv {
  ENV_S3_ENDPOINT : option string;
  ENV_S3_ARGS : option string;
  access : string -> bool;
  aws : list string -> list AwsEvent
}.

Inductive Effect :=
| Log (msg : string)
| ConsoleError (msg : string)
| Spawn (command : string) (args : list string).

(** State of the [Promise<string>] an upload returns. *)
Inductive settlement :=
| Pending
| Fulfilled (url : string)
| Rejected (message : string).

Section Uploader.

Variable GLOBAL : Global.
Variable env : Env.

Definition S3_ENDPOINT : string :=
  Js.env_or (ENV_S3_ENDPOINT env) "s3.fr-par.scw.cloud".

(** **** S3Uploader.getS3Args *)
Definition getS3Args (s3Args : option (list string)) : list string :=
  match s3Args with
  | Some (x :: xs) => x :: xs
  | _ =>
      match s3_args <$> remote GLOBAL with
      | Some (x :: xs) => x :: xs
      | _ =>
          match ENV_S3_ARGS env with
          | Some v => if Js.truthy v then Js.split_space v else []
          | None => []
          end
      end
  end.

(** [GLOBAL.get().remote?.aws_s3_public !== false] *)
Definition public_read : bool :=
  match remote GLOBAL with
  | Some r =>
      match aws_s3_public r with
      | Some false => false
      | _ => true
      end
  | None => true
  end.

(** The handlers of the [aws] child, over what it printed so far and
    the state of the returned promise. *)
Record Handling := mkHandling {
  output : string;
  errorOutput : string;
  settled : settlement;
  printed : list Effect
}.

Definition settle (s : settlement) (h : Handling) : settlement :=
  match settled h with
  | Pending => s
  | done => done
  end.

Definition handle (what : string) (bucketName s3Path : string)
    (h : Handling) (ev : AwsEvent) : Handling :=
  match ev with
  | StdoutData data =>
      {| output := output h +++ data; errorOutput := errorOutput h;
         settled := settled h; printed := printed h |}
  | StderrData data =>
      {| output := output h; errorOutput := errorOutput h +++ data;
         settled := settled h;
         printed := printed h ++
           [ConsoleError ("S3 " +++ what +++ " error: " +++ Js.trim data)] |}
  | ProcessError message =>
      {| output := output h; errorOutput := errorOutput h;
         settled := settle
           (Rejected ("AWS CLI process failed to start: " +++ message)) h;
         printed := printed h ++
           [ConsoleError ("Failed to start AWS CLI process: " +++ message)] |}
  | Close code =>
      if Js.strict_eq_zero code then
        {| output := output h; errorOutput := errorOutput h;
           settled := settle
             (Fulfilled ("https://" +++ bucketName +++ "." +++ S3_ENDPOINT
                         +++ "/" +++ s3Path)) h;
           printed := printed h |}
      else
        let errorMessage :=
          "S3 " +++ what +++ " failed (" +++ Js.string_of_code code +++ "): "
          +++ Js.str_or (errorOutput h) (output h) in
        {| output := output h; errorOutput := errorOutput h;
           settled := settle (Rejected errorMessage) h;
           printed := printed h ++ [ConsoleError errorMessage] |}
  end.

(** [new Promise(..)] around [spawn('aws', fullArgs)]. *)
Definition run_aws (what : string) (bucketName s3Path : string)
    (fullArgs : list string) : settlement * list Effect :=
  let h := fold_left (handle what bucketName s3Path) (aws env fullArgs)
             {| output := EmptyString; errorOutput := EmptyString;
                settled := Pending; printed := [] |} in
  (settled h, Spawn "aws" fullArgs :: printed h).

(** **** S3Uploader.uploadFile *)
Definition uploadFile (filePath bucketName s3Path : string)
    (s3Args : option (list string)) (isAudio : bool)
    : settlement * list Effect :=
  if isServerless GLOBAL then
    (Fulfilled EmptyString, [Log "Skipping S3 upload - serverless mode"])
  else if negb (access env filePath) then
    let message := "File does not exist: " +++ filePath in
    (Rejected message, [ConsoleError ("S3 upload error: " +++ message)])
  else
    let s3FullPath := "s3://" +++ bucketName +++ "/" +++ s3Path in
    let s3Args := getS3Args s3Args in
    let fullArgs :=
      s3Args ++ ["s3"; "cp"; filePath; s3FullPath] ++
      (if public_read then ["--acl"; "public-read"] else []) in
    let '(result, effects) := run_aws "upload" bucketName s3Path fullArgs in
    (result,
     Log ("🔍 S3 upload command: aws " +++ Js.join_space fullArgs) :: effects).

(** **** S3Uploader.uploadDirectory *)
Definition uploadDirectory (localDir bucketName s3Path : string)
    (s3Args : option (list string)) : settlement * list Effect :=
  if isServerless GLOBAL then
    (Fulfilled EmptyString, [Log "Skipping S3 upload - serverless mode"])
  else
    let s3FullPath := "s3://" +++ bucketName +++ "/" +++ s3Path in
    let s3Args := getS3Args s3Args in
    let fullArgs :=
      s3Args ++ ["s3"; "sync"; localDir; s3FullPath; "--delete"] ++
      (if public_read then ["--acl"; "public-read"] else []) in
    let '(result, effects) := run_aws "sync" bucketName s3Path fullArgs in
    (result,
     Log ("🔍 S3 sync command: aws " +++ Js.join_space fullArgs) :: effects).

(** **** S3Uploader.uploadToDefaultBucket

    Reading [aws_s3_log_bucket] of a [remote] that is [null] throws inside
    the [try]; the [catch] logs the message of whatever was thrown or
    rejected and throws it again. *)
Definition uploadToDefaultBucket (filePath s3Path : string)
    (s3_args : list string) : settlement * list Effect :=
  if isServerless GLOBAL then
    (Fulfilled EmptyString, [Log "Skipping S3 upload - serverless mode"])
  else
    match remote GLOBAL with
    | None =>
        let message :=
          "Cannot read properties of null (reading 'aws_s3_log_bucket')" in
        (Rejected message,
         [ConsoleError ("Failed to upload to default bucket: " +++ message)])
    | Some r =>
        let '(result, effects) :=
          uploadFile filePath (aws_s3_log_bucket r) s3Path (Some s3_args) false in
        (result,
         effects ++
         match result with
         | Rejected message =>
             [ConsoleError ("Failed to upload to default bucket: " +++ message)]
         | _ => []
         end)
    end.

(** **** S3Uploader.getInstance

    The module variable [instance] and the objects [new S3Uploader()] has
    made so far; an object is named by its rank among them. *)
Record Singleton := mkSingleton {
  instance : option nat;
  created : nat
}.

Definition getInstance (m : Singleton) : option nat * Singleton * list Effect :=
  if isServerless GLOBAL then
    (None, m, [Log "Skipping S3 uploader - serverless mode"])
  else
    match instance m with
    | Some i => (Some i, m, [])
    | None =>
        (Some (created m),
         {| instance := Some (created m); created := S (created m) |}, [])
    end.

(** **** s3cp: a synchronous call that returns a promise or throws. *)
Inductive Call :=
| Threw (message : string)
| Returned (p : settlement).

Definition s3cp (m : Singleton) (local s3path : string) (s3_args : list string)
    : Call * Singleton * list Effect :=
  match getInstance m with
  | (None, m', t) =>
      (Threw "Cannot read properties of null (reading 'uploadToDefaultBucket')",
       m', t)
  | (Some _, m', t) =>
      let '(p, t') := uploadToDefaultBucket local s3path s3_args in
      (Returned p, m', t ++ t')
  end.

(** An upload took place when an [aws] child was spawned. *)
Definition is_spawn (e : Effect) : bool :=
  match e with
  | Spawn _ _ => true
  | _ => false
  end.

End Uploader.

End S3.

(** ** Recording modes (the file that declares [MeetingParams]) *)

Module Recording.

(** [normalizeRecordingMode]: the normalized mode and what [console.warn]
    printed.  A [RecordingMode] is a string at run time, and the [default]
    branch takes every string the six cases leave. *)
Definition normalizeRecordingMode (mode : string) : string * list string :=
  if String.eqb mode "speaker_view" || String.eqb mode "SpeakerView" then
    ("speaker_view", [])
  else if String.eqb mode "gallery_view" || String.eqb mode "GalleryView" then
    ("gallery_view", [])
  else if String.eqb mode "audio_only" || String.eqb mode "AudioOnly" then
    ("audio_only", [])
  else
    ("speaker_view",
     ["Unknown recording mode: " +++ mode +++ ", defaulting to speaker_view"]).

End Recording.

(** * The vocabulary of the properties *)

Import Media.

(** The two fields of [MediaContext]. *)
Definition slots (w : World) : option pid * option pid :=
  (process w, promise w).

(** A computation that writes neither field. *)
Definition keeps_slots {A} (c : M A) : Prop :=
  forall w, slots (world_of (c w)) = slots w.

(** The activation a spawning [execute] leaves behind. *)
Definition fresh (k : pid) (args : list string) (cb : callback) : Activation :=
  {| spawnargs := args; stdout_listeners := [k]; stderr_listeners := [k];
     signals := []; exited := false; completion := Pending; after := cb |}.

(** Whenever [this.process] holds a child, [this.promise] holds the promise
    the same [execute] call created. *)
Definition paired (w : World) : Prop :=
  forall k, process w = Some k -> promise w = Some k.

(** A computation that keeps [paired]. *)
Definition preserves {A} (c : M A) : Prop :=
  forall w, paired w -> paired (world_of (c w)).

(** The objects after the two [removeListener] calls of a handler of the
    [k]-th call, made on the child [j] the field holds. *)
Definition detached (k j : pid) (sp : list Activation) : list Activation :=
  alter (with_listeners Stderr (Js.remove_listener k)) j
    (alter (with_listeners Stdout (Js.remove_listener k)) j sp).

(** The objects after [resolve]/[reject] of the promise [k]. *)
Definition settled_with (c : settlement) (k : pid) (sp : list Activation)
    : list Activation :=
  alter (fun a => match completion a with
                  | Pending => with_completion c a
                  | _ => a
                  end) k sp.

(** The first line of the exit handler. *)
Definition exit_log (code : option Z) : Effect :=
  Log ("process exited with code " +++ Js.string_of_code code).

(** The arguments [play] builds. *)
Definition sound_args (cfg : Config) (pathname : string) (loop : bool)
  : list string :=
  (if loop then ["-stream_loop"; "-1"] else []) ++
  ["-re"; "-i"; pathname; "-f"; "alsa"; "-acodec"; "pcm_s16le";
   MICRO_DEVICE cfg].

Definition video_args (cfg : Config) (pathname : string) (loop : bool)
  : list string :=
  (if loop then ["-stream_loop"; "-1"] else []) ++
  ["-re"; "-i"; pathname; "-f"; "v4l2"; "-vcodec"; "mjpeg";
   "-q:v"; "5"; "-threads"; "0"; CAMERA_DEVICE cfg].



Definition is_spawn (e : Effect) : bool :=
  match e with
  | Spawn _ _ _ => true
  | _ => false
  end.

Definition is_called (e : Effect) : bool :=
  match e with
  | Called _ _ _ => true
  | _ => false
  end.

Definition is_call_after (e : Effect) : bool :=
  match e with
  | CallAfter _ => true
  | _ => false
  end.

(** The processes a trace spawned, the [play] calls and the [after] calls
    it made. *)
Definition spawns (t : list Effect) : list Effect := List.filter is_spawn t.
Definition plays (t : list Effect) : list Effect := List.filter is_called t.
Definition afters (t : list Effect) : list Effect := List.filter is_call_after t.

(** The world and the trace of an [execute] call that spawns. *)
Definition started (args : list string) (cb : callback) (w : World) : World :=
  let k := length (spawned w) in
  {| process := Some k; promise := Some k;
     spawned := spawned w ++ [fresh k args cb];
     stopping := stopping w |}.

Definition start_trace (k : pid) (args : list string) : list Effect :=
  [Spawn k "ffmpeg" args; SetProcess (Some k); AddListener k Stdout k;
   AddListener k Stderr k; SetPromise (Some k)].

(** A sound and a video controller in an environment that sets neither
    device variable and whose file system holds the branding asset only. *)
Definition sound_cfg : Config :=
  {| VIRTUAL_MIC := None; VIDEO_DEVICE := None;
     existsSync := fun p => String.eqb p "../branding.mjpeg";
     channel := Sound; sampleRate := 48000 |}.

Definition video_cfg : Config :=
  {| VIRTUAL_MIC := None; VIDEO_DEVICE := None;
     existsSync := fun p => String.eqb p "../branding.mjpeg";
     channel := Video; sampleRate := 48000 |}.

(** The sound controller after [SoundContext.play_stdin()]. *)
Definition streaming : World :=
  world_of (run sound_cfg [CallPlayStdin] constructor).

(** The sound controller after [SoundContext.play_stdin()] and the exit of its child
    with code 0. *)
Definition stream_ended : World :=
  world_of (run sound_cfg [CallPlayStdin; OnExit 0 (Some 0%Z)] constructor).

(** A computation that never throws. *)
Definition returns {A} (c : M A) : Prop :=
  forall w, exists a, result_of (c w) = Normal a.

(** The events of a sequence of [play] calls. *)
Definition play_calls (calls : list (string * bool)) : list Event :=
  map (fun c => CallPlay (fst c) (snd c)) calls.

(** A serverless process and an environment in which an upload would
    succeed. *)
Definition serverless : S3.Global :=
  {| S3.isServerless := true; S3.remote := None |}.

Definition working_env : S3.Env :=
  {| S3.ENV_S3_ENDPOINT := None; S3.ENV_S3_ARGS := None;
     S3.access := fun _ => true;
     S3.aws := fun _ => [S3.Close (Some 0%Z)] |}.

(** The [play] a callback makes. *)
Definition fallback_of (cb : callback) : list Effect :=
  match cb with
  | SoundDefault => [Called Sound "../silence.opus" false]
  | VideoDefault => [Called Video "../branding.mjpeg" true]
  | StdinSequenceEnded => []
  end.

(** The sound controller after [play("intro.mp3", false)]. *)
Definition playing : World :=
  world_of (run sound_cfg [CallPlay "intro.mp3" false] constructor).

(** A clip is played and stopped; the child exits with code 0 while the
    stop awaits it, so the fallback starts a second child before the
    cleanup of the stop empties the slot; then the second child exits. *)
Definition stop_race : list Event :=
  [CallPlay "intro.mp3" false; CallStop; OnExit 0 (Some 0%Z); OnExit 1 (Some 0%Z)].

(** ** The vocabulary of the uploader's properties *)

(** The arguments [uploadFile] and [uploadDirectory] give to [aws]. *)
Definition upload_args (g : S3.Global) (env : S3.Env)
    (filePath bucketName s3Path : string) (s3Args : option (list string))
    : list string :=
  S3.getS3Args g env s3Args ++
  ["s3"; "cp"; filePath; "s3://" +++ bucketName +++ "/" +++ s3Path] ++
  (if S3.public_read g then ["--acl"; "public-read"] else []).

Definition sync_args (g : S3.Global) (env : S3.Env)
    (localDir bucketName s3Path : string) (s3Args : option (list string))
    : list string :=
  S3.getS3Args g env s3Args ++
  ["s3"; "sync"; localDir; "s3://" +++ bucketName +++ "/" +++ s3Path; "--delete"] ++
  (if S3.public_read g then ["--acl"; "public-read"] else []).

(** The URL an upload resolves to. *)
Definition public_url (env : S3.Env) (bucketName s3Path : string) : string :=
  "https://" +++ bucketName +++ "." +++ S3.S3_ENDPOINT env +++ "/" +++ s3Path.

(** The events that only carry output. *)
Definition is_data (ev : S3.AwsEvent) : bool :=
  match ev with
  | S3.StdoutData _ | S3.StderrData _ => true
  | _ => false
  end.

(** What a run printed on each stream, chunk after chunk. *)
Fixpoint stdout_of (evs : list S3.AwsEvent) : string :=
  match evs with
  | [] => EmptyString
  | S3.StdoutData data :: rest => data +++ stdout_of rest
  | _ :: rest => stdout_of rest
  end.

Fixpoint stderr_of (evs : list S3.AwsEvent) : string :=
  match evs with
  | [] => EmptyString
  | S3.StderrData data :: rest => data +++ stderr_of rest
  | _ :: rest => stderr_of rest
  end.

(** How the promise settles on the event [ev] that comes after the output
    [pre]. *)
Definition verdict (env : S3.Env) (what bucketName s3Path : string)
    (pre : list S3.AwsEvent) (ev : S3.AwsEvent) : S3.settlement :=
  match ev with
  | S3.Close code =>
      if Js.strict_eq_zero code then
        S3.Fulfilled (public_url env bucketName s3Path)
      else
        S3.Rejected ("S3 " +++ what +++ " failed (" +++ Js.string_of_code code
                     +++ "): " +++ Js.str_or (stderr_of pre) (stdout_of pre))
  | S3.ProcessError message =>
      S3.Rejected ("AWS CLI process failed to start: " +++ message)
  | _ => S3.Pending
  end.

(** The [aws] processes a trace spawned. *)
Definition aws_spawns (t : list S3.Effect) : list S3.Effect :=
  List.filter S3.is_spawn t.

(** [n] calls of [getInstance] in a row: what each returned, and the
    module state after the last. *)
Fixpoint getInstance_times (g : S3.Global) (n : nat) (m : S3.Singleton)
    : list (option nat) * S3.Singleton :=
  match n with
  | O => ([], m)
  | S n' =>
      let '(r, m1, _) := S3.getInstance g m in
      let '(rs, m2) := getInstance_times g n' m1 in
      (r :: rs, m2)
  end.

(** The module as loaded: [let instance = null]. *)
Definition no_instance : S3.Singleton :=
  {| S3.instance := None; S3.created := 0 |}.

(** An environment whose [aws] prints a line on each stream and closes
    with code 1, then reports more. *)
Definition failing_env : S3.Env :=
  {| S3.ENV_S3_ENDPOINT := None; S3.ENV_S3_ARGS := Some "--profile scw";
     S3.access := fun p => String.eqb p "rec.mp4";
     S3.aws := fun _ => [S3.StdoutData "upload: "; S3.StderrData "denied";
                         S3.Close (Some 1%Z); S3.Close (Some 0%Z)] |}.

(** A process that is not serverless and has no [remote]. *)
Definition local_global : S3.Global :=
  {| S3.isServerless := false; S3.remote := None |}.

(** ** The vocabulary of the supervisor's further properties *)

(** A computation that keeps the property [I] of worlds. *)
Definition maintains {A} (I : World -> Prop) (c : M A) : Prop :=
  forall w, I w -> I (world_of (c w)).

(** Each stream of each child has no 'data' listener or one, the listener
    made by the [execute] call that spawned the child. *)
Definition own_listeners (w : World) : Prop :=
  forall k a s,
    spawned w !! k = Some a -> listeners s a = [] \/ listeners s a = [k].

(** What may become of a child: its arguments and its callback stay, a
    settled promise keeps its outcome, an exit stays recorded and the
    signals sent are only added to. *)
Definition ages (a a' : Activation) : Prop :=
  spawnargs a' = spawnargs a /\
  after a' = after a /\
  (completion a <> Pending -> completion a' = completion a) /\
  (exited a = true -> exited a' = true) /\
  (exists more, signals a' = signals a ++ more).

(** [w'] is a later world of [w]: every child of [w] is still there, aged. *)
Definition later (w w' : World) : Prop :=
  forall k a, spawned w !! k = Some a ->
    exists a', spawned w' !! k = Some a' /\ ages a a'.

(** What [stop_process] logs when its promise has settled. *)
Definition stop_log (outcome : settlement) : list Effect :=
  match outcome with
  | Fulfilled code =>
      [Log ("process exited with code " +++ Js.string_of_code code)]
  | Rejected err => [Log ("process exited with error " +++ err)]
  | Pending => []
  end.

(** The supervisor with both fields cleared and no [stop_process] call
    suspended. *)
Definition idle_with (sp : list Activation) : World :=
  {| process := None; promise := None; spawned := sp; stopping := [] |}.

(** A child after a stop: signalled, without its listeners, its promise
    settled. *)
Definition stopped (k : pid) (gone : bool) (outcome : settlement)
    (a : Activation) : Activation :=
  {| spawnargs := spawnargs a;
     stdout_listeners := Js.remove_listener k (stdout_listeners a);
     stderr_listeners := Js.remove_listener k (stderr_listeners a);
     signals := signals a ++ ["SIGTERM"];
     exited := gone;
     completion := outcome;
     after := after a |}.

(** A child after [kill] calls with the signals [sigs]. *)
Definition with_signals (sigs : list string) (a : Activation) : Activation :=
  {| spawnargs := spawnargs a; stdout_listeners := stdout_listeners a;
     stderr_listeners := stderr_listeners a; signals := signals a ++ sigs;
     exited := exited a; completion := completion a; after := after a |}.

(** ** The vocabulary of the listeners' property *)

(** A continuation of a pattern that accepts every extension of what it
    accepts, and does not accept the empty text. *)
Definition extends (k : string -> bool) : Prop :=
  forall s more, k s = true -> k (s +++ more) = true.

Definition strict (k : string -> bool) : Prop :=
  k EmptyString = false /\ extends k.

(** * Properties of the media supervisor *)

(** ** Running the monad *)

Lemma alter_snoc {A} (f : A -> A) (l : list A) (a : A) :
  alter f (length l) (l ++ [a]) = l ++ [f a].
Proof.
  rewrite alter_app_r_alt by lia. by rewrite Nat.sub_diag.
Qed.

Lemma lookup_snoc {A} (l : list A) (a : A) :
  (l ++ [a]) !! length l = Some a.
Proof. by rewrite list_lookup_middle. Qed.

Lemma bind_world_normal {A B} (c : M A) (k : A -> M B) w a w1 t1 :
  c w = (Normal a, w1, t1) ->
  world_of (bind c k w) = world_of (k a w1).
Proof.
  intros E. unfold bind. rewrite E. by destruct (k a w1) as [[r w2] t2].
Qed.

Lemma bind_world_throws {A B} (c : M A) (k : A -> M B) w e w1 t1 :
  c w = (Throws e, w1, t1) ->
  world_of (bind c k w) = w1.
Proof. intros E. unfold bind. by rewrite E. Qed.

(** ** Computations that leave the two fields alone *)

Lemma keeps_bind {A B} (c : M A) (k : A -> M B) :
  keeps_slots c -> (forall a, keeps_slots (k a)) -> keeps_slots (bind c k).
Proof.
  intros Hc Hk w. destruct (c w) as [[[a|e] w1] t1] eqn:E.
  - rewrite (bind_world_normal _ _ _ _ _ _ E), Hk.
    by rewrite <- (Hc w), E.
  - rewrite (bind_world_throws _ _ _ _ _ _ E).
    by rewrite <- (Hc w), E.
Qed.

Lemma keeps_ret {A} (a : A) : keeps_slots (ret a).
Proof. by intros w. Qed.

Lemma keeps_throw {A} e : keeps_slots (@throw A e).
Proof. by intros w. Qed.

Lemma keeps_emit e : keeps_slots (emit e).
Proof. by intros w. Qed.

Lemma keeps_get : keeps_slots get.
Proof. by intros w. Qed.

Lemma keeps_set_spawned l : keeps_slots (set_spawned l).
Proof. by intros w. Qed.

Lemma keeps_set_stopping l : keeps_slots (set_stopping l).
Proof. by intros w. Qed.

Lemma keeps_modify p f : keeps_slots (modify p f).
Proof. by intros w. Qed.

Lemma keeps_this_process : keeps_slots this_process.
Proof. intros w. unfold this_process, bind, get. simpl. by destruct (process w). Qed.

Create HintDb slots.
#[local] Hint Resolve keeps_ret keeps_throw keeps_emit keeps_get keeps_set_spawned
  keeps_set_stopping keeps_modify keeps_this_process : slots.

Ltac keeps :=
  repeat first
    [ solve [auto with slots]
    | match goal with
      | |- forall _, _ => intro
      | |- keeps_slots (match ?x with _ => _ end) => destruct x
      end
    | apply keeps_bind ].

Lemma keeps_addListener s l : keeps_slots (addListener s l).
Proof. unfold addListener. keeps. Qed.

Lemma keeps_removeListener s l : keeps_slots (removeListener s l).
Proof. unfold removeListener. keeps. Qed.

Lemma keeps_resolve k code : keeps_slots (resolve k code).
Proof. unfold resolve, settle. keeps. Qed.

Lemma keeps_reject k err : keeps_slots (reject k err).
Proof. unfold reject, settle. keeps. Qed.

Lemma keeps_kill p sig : keeps_slots (kill p sig).
Proof. unfold kill. keeps. Qed.

#[local] Hint Resolve keeps_addListener keeps_removeListener keeps_resolve
  keeps_reject keeps_kill : slots.

Lemma keeps_stop_process : keeps_slots stop_process.
Proof.
  unfold stop_process. keeps.
Qed.

Lemma keeps_error_handler k err : keeps_slots (error_handler k err).
Proof. unfold error_handler. keeps. Qed.

(** ** What [execute] does *)

Lemma execute_busy args cb w k :
  process w = Some k ->
  execute args cb w = (Normal None, w, [Warn "Already on execution"]).
Proof.
  intros H. unfold execute, bind, get. by rewrite H.
Qed.

Lemma execute_idle args cb w :
  process w = None ->
  execute args cb w =
    let k := length (spawned w) in
    (Normal (Some k),
     {| process := Some k; promise := Some k;
        spawned := spawned w ++ [fresh k args cb];
        stopping := stopping w |},
     [Spawn k "ffmpeg" args; SetProcess (Some k); AddListener k Stdout k;
      AddListener k Stderr k; SetPromise (Some k)]).
Proof.
  intros H. destruct w as [p q sp st]. simpl in H. subst p.
  cbv [execute bind get addListener this_process modify set_spawned
       set_process set_promise spawn put emit ret
       process promise spawned stopping with_listeners].
  by rewrite !alter_snoc.
Qed.

(** ** The invariant of the two fields: every step keeps [paired] *)

Lemma paired_slots w w' : slots w' = slots w -> paired w -> paired w'.
Proof.
  unfold slots, paired. intros E H k Hk. injection E as E1 E2.
  rewrite E2. apply H. by rewrite <- E1.
Qed.

Lemma keeps_preserves {A} (c : M A) : keeps_slots c -> preserves c.
Proof. intros H w Hw. by apply (paired_slots w). Qed.

Lemma preserves_bind {A B} (c : M A) (k : A -> M B) :
  preserves c -> (forall a, preserves (k a)) -> preserves (bind c k).
Proof.
  intros Hc Hk w Hw. specialize (Hc w Hw).
  destruct (c w) as [[[a|e] w1] t1] eqn:E.
  - rewrite (bind_world_normal _ _ _ _ _ _ E). by apply Hk.
  - by rewrite (bind_world_throws _ _ _ _ _ _ E).
Qed.

Lemma preserves_execute args cb : preserves (execute args cb).
Proof.
  intros w Hw. destruct (process w) as [k|] eqn:E.
  - by rewrite (execute_busy _ _ _ _ E).
  - rewrite (execute_idle _ _ _ E). by intros k.
Qed.

Lemma preserves_clear : preserves (set_process None).
Proof. by intros w _ k. Qed.

Lemma preserves_task {A} (c : M A) : preserves c -> preserves (task c).
Proof.
  intros H w Hw. specialize (H w Hw). unfold task.
  by destruct (c w) as [[[a|e] w1] t1].
Qed.

#[local] Hint Resolve preserves_execute preserves_clear : slots.

Ltac pres :=
  repeat first
    [ solve [auto with slots]
    | solve [apply keeps_preserves; keeps]
    | match goal with
      | |- forall _, _ => intro
      | |- preserves (match ?x with _ => _ end) => destruct x
      end
    | apply preserves_task
    | apply preserves_bind ].

Section Invariant.

Variable cfg : Config.

Lemma preserves_sound_play pathname loop : preserves (SoundContext.play cfg pathname loop).
Proof. unfold SoundContext.play. pres. Qed.

Lemma preserves_video_play pathname loop : preserves (VideoContext.play cfg pathname loop).
Proof. unfold VideoContext.play. pres. Qed.

Lemma preserves_play_stdin : preserves (SoundContext.play_stdin cfg).
Proof. unfold SoundContext.play_stdin. pres. Qed.

Hint Resolve preserves_sound_play preserves_video_play preserves_play_stdin : slots.

Lemma preserves_play pathname loop : preserves (play cfg pathname loop).
Proof. unfold play. pres. Qed.

Lemma preserves_call_after cb : preserves (call_after cfg cb).
Proof. unfold call_after, SoundContext.default, VideoContext.default. pres. Qed.

Hint Resolve preserves_play preserves_call_after : slots.

Lemma preserves_exit_handler k cb code : preserves (exit_handler cfg k cb code).
Proof. unfold exit_handler. pres. Qed.

Lemma preserves_stop_resume o : preserves (stop_resume o).
Proof.
  intros w _ k. unfold stop_resume.
  destruct o; cbv [bind emit ret set_process set_promise get put world_of
                   process fst snd]; discriminate.
Qed.

Hint Resolve preserves_exit_handler preserves_stop_resume : slots.

Lemma preserves_resume_settled qs : preserves (resume_settled qs).
Proof.
  induction qs as [|q rest IH]; simpl; pres.
Qed.

Hint Resolve preserves_resume_settled : slots.

Lemma preserves_drain : preserves drain.
Proof. unfold drain. pres. Qed.

Hint Resolve preserves_drain : slots.

Lemma preserves_step ev : preserves (step cfg ev).
Proof. destruct ev; simpl; pres. Qed.

Hint Resolve preserves_step : slots.

Lemma preserves_run evs : preserves (run cfg evs).
Proof. induction evs as [|ev rest IH]; simpl; pres. Qed.

Lemma reachable_paired w : reachable cfg w -> paired w.
Proof.
  intros [evs <-]. apply preserves_run. by intros k.
Qed.

End Invariant.

(** ** What the handlers do *)

Section Handlers.

Variable cfg : Config.


Lemma exit_handler_nonzero k cb code w j :
  process w = Some j ->
  Js.loose_eq_zero code = false ->
  exit_handler cfg k cb code w =
    (Normal tt,
     {| process := Some j; promise := promise w;
        spawned := settled_with (Fulfilled code) k (detached k j (spawned w));
        stopping := stopping w |},
     [exit_log code; RemoveListener j Stdout k; RemoveListener j Stderr k;
      Resolve k code]).
Proof.
  intros H Hc. destruct w as [p q sp st]. simpl in H. subst p.
  unfold exit_handler. rewrite Hc. reflexivity.
Qed.

Lemma exit_handler_zero k cb code w j :
  process w = Some j ->
  Js.loose_eq_zero code = true ->
  exit_handler cfg k cb code w =
    let w1 := {| process := None; promise := promise w;
                 spawned := detached k j (spawned w);
                 stopping := stopping w |} in
    match call_after cfg cb w1 with
    | (Normal _, w2, t) =>
        (Normal tt,
         {| process := process w2; promise := promise w2;
            spawned := settled_with (Fulfilled code) k (spawned w2);
            stopping := stopping w2 |},
         [exit_log code; RemoveListener j Stdout k; RemoveListener j Stderr k;
          SetProcess None] ++ t ++ [Resolve k code])
    | (Throws e, w2, t) =>
        (Throws e, w2,
         [exit_log code; RemoveListener j Stdout k; RemoveListener j Stderr k;
          SetProcess None] ++ t)
    end.
Proof.
  intros H Hc. destruct w as [p q sp st]. simpl in H. subst p.
  unfold exit_handler. rewrite Hc.
  cbv [bind get put emit ret removeListener this_process modify set_spawned
       set_process process promise spawned stopping detached].
  destruct (call_after cfg cb _) as [[[[]|e] w2] t]; [|reflexivity].
  cbv [resolve settle bind get put emit ret modify set_spawned settled_with].
  reflexivity.
Qed.

Lemma error_handler_orphan k err w :
  process w = None ->
  error_handler k err w = (Throws TypeError, w, [ConsoleError err]).
Proof.
  intros H. destruct w as [p q sp st]. simpl in H. subst p. reflexivity.
Qed.


Lemma sound_play_eq pathname loop w :
  SoundContext.play cfg pathname loop w =
    match execute (sound_args cfg pathname loop) SoundDefault w with
    | (_, w1, t) => (Normal tt, w1, Called Sound pathname loop :: t)
    end.
Proof.
  unfold SoundContext.play, sound_args, bind, emit, ret.
  destruct w as [[p|] q sp st].
  - rewrite (execute_busy _ _ _ p) by reflexivity. reflexivity.
  - rewrite execute_idle by reflexivity. reflexivity.
Qed.

Lemma video_play_missing pathname loop w :
  existsSync cfg pathname = false ->
  VideoContext.play cfg pathname loop w =
    (Normal tt, w,
     [Called Video pathname loop; Log ("Video file not found: " +++ pathname)]).
Proof.
  intros H. unfold VideoContext.play, bind, emit. by rewrite H.
Qed.

Lemma video_play_found pathname loop w :
  existsSync cfg pathname = true ->
  VideoContext.play cfg pathname loop w =
    match execute (video_args cfg pathname loop) VideoDefault w with
    | (_, w1, t) => (Normal tt, w1, Called Video pathname loop :: t)
    end.
Proof.
  intros H. unfold VideoContext.play, video_args, bind, emit, ret. rewrite H.
  cbn [negb]. destruct w as [[p|] q sp st].
  - rewrite (execute_busy _ _ _ p) by reflexivity. reflexivity.
  - rewrite execute_idle by reflexivity. reflexivity.
Qed.

End Handlers.

(** ** Order in a trace *)



(** ** The callbacks on an empty slot *)

Section Callbacks.

Variable cfg : Config.

Lemma call_after_idle cb w :
  process w = None ->
  call_after cfg cb w =
    match cb with
    | SoundDefault =>
        let args := sound_args cfg "../silence.opus" false in
        (Normal tt, started args SoundDefault w,
         [CallAfter cb; Called Sound "../silence.opus" false] ++
         start_trace (length (spawned w)) args)
    | VideoDefault =>
        if existsSync cfg "../branding.mjpeg" then
          let args := video_args cfg "../branding.mjpeg" true in
          (Normal tt, started args VideoDefault w,
           [CallAfter cb; Called Video "../branding.mjpeg" true] ++
           start_trace (length (spawned w)) args)
        else
          (Normal tt, w,
           [CallAfter cb; Called Video "../branding.mjpeg" true;
            Log "Video file not found: ../branding.mjpeg"])
    | StdinSequenceEnded =>
        (Normal tt, w, [CallAfter cb; Warn "[play_stdin] Sequence ended"])
    end.
Proof.
  intros H. unfold call_after, SoundContext.default, VideoContext.default.
  destruct cb; unfold bind at 1, emit at 1.
  - rewrite sound_play_eq, execute_idle by done. reflexivity.
  - destruct (existsSync cfg "../branding.mjpeg") eqn:E.
    + rewrite video_play_found, execute_idle by done. reflexivity.
    + rewrite video_play_missing by done. reflexivity.
  - reflexivity.
Qed.

End Callbacks.

(** ** The worlds the examples run on *)

Lemma reachable_streaming : reachable sound_cfg streaming.
Proof. by exists [CallPlayStdin]. Defined.

Lemma reachable_stream_ended : reachable sound_cfg stream_ended.
Proof. by exists [CallPlayStdin; OnExit 0 (Some 0%Z)]. Defined.

(** ** The slot and its signal *)

(** C1, as stated, fails: after [SoundContext.play_stdin()] and the exit of the child
    with code 0 the active-process slot is empty while the completion
    signal is still there. *)
Lemma signal_outlives_slot :
  ~ (forall w, reachable sound_cfg w ->
       (is_Some (process w) <-> is_Some (promise w))).
Proof.
  intros H. destruct (H stream_ended reachable_stream_ended) as [_ H'].
  destruct H' as [k Hk]; [by exists 0|]. discriminate Hk.
Qed.

(** C1, amended: in every reachable state of a supervisor, a present
    active-process slot comes with the completion signal (the one the same
    [execute] call created).  A spawning [execute] sets both, the cleanup
    of [stop_process] clears both; the exit handler on code 0 clears the
    slot and leaves a signal in place, and the error handler clears
    neither. *)
Theorem slot_has_its_signal (cfg : Config) (w : World) :
  reachable cfg w ->
  (forall k, process w = Some k -> promise w = Some k) /\
  (process w = None ->
   forall args cb,
     slots (world_of (execute args cb w)) =
       (Some (length (spawned w)), Some (length (spawned w)))) /\
  (forall outcome, slots (world_of (stop_resume outcome w)) = (None, None)) /\
  (forall j k code,
     process w = Some j -> Js.loose_eq_zero code = true ->
     slots (world_of (exit_handler cfg k StdinSequenceEnded code w))
       = (None, Some j) /\
     forall cb,
       is_Some (promise (world_of (exit_handler cfg k cb code w)))) /\
  (forall k err, slots (world_of (error_handler k err w)) = slots w).
Proof.
  intros Hr. pose proof (reachable_paired cfg w Hr) as Hp.
  split; [exact Hp|]. split; [|split; [|split]].
  - intros Hidle args cb. by rewrite execute_idle.
  - intros o. unfold stop_resume. by destruct o.
  - intros j k code Hj Hc. split.
    + rewrite (exit_handler_zero cfg _ _ _ _ _ Hj Hc). cbv zeta.
      rewrite call_after_idle by done. unfold slots. simpl.
      by rewrite (Hp _ Hj).
    + intros cb. rewrite (exit_handler_zero cfg _ _ _ _ _ Hj Hc). cbv zeta.
      rewrite call_after_idle by done. rewrite (Hp _ Hj).
      destruct cb; [| destruct (existsSync cfg _) |]; simpl; eauto.
  - intros k err. apply keeps_error_handler.
Qed.

Lemma slot_has_its_signal_witness :
  (forall k, process streaming = Some k -> promise streaming = Some k) /\
  slots (world_of (exit_handler sound_cfg 0 StdinSequenceEnded (Some 0%Z) streaming))
    = (None, Some 0).
Proof.
  destruct (slot_has_its_signal sound_cfg streaming reachable_streaming)
    as (H1 & _ & _ & H4 & _).
  split; [exact H1|].
  destruct (H4 0 0 (Some 0%Z)) as [H _]; [reflexivity|reflexivity|exact H].
Defined.

(** ** Computations that do not throw *)

Lemma returns_bind {A B} (c : M A) (k : A -> M B) :
  returns c -> (forall a, returns (k a)) -> returns (bind c k).
Proof.
  intros Hc Hk w. destruct (Hc w) as [a Ha]. unfold bind.
  destruct (c w) as [[r w1] t1]. unfold result_of in Ha. simpl in Ha. subst r.
  destruct (Hk a w1) as [b Hb]. exists b.
  by destruct (k a w1) as [[r w2] t2].
Qed.

Lemma returns_task {A} (c : M A) : returns (task c).
Proof.
  intros w. exists tt. unfold task. by destruct (c w) as [[[a|e] w1] t1].
Qed.

Lemma returns_ret {A} (a : A) : returns (ret a).
Proof. intros w. by exists a. Qed.

Lemma returns_emit e : returns (emit e).
Proof. intros w. by exists tt. Qed.

Lemma returns_get : returns get.
Proof. intros w. by exists w. Qed.

Lemma returns_put w : returns (put w).
Proof. intros w'. by exists tt. Qed.

Create HintDb returns.
#[local] Hint Resolve returns_task returns_ret returns_emit returns_get returns_put
  : returns.

Ltac returns :=
  repeat first
    [ solve [auto with returns]
    | match goal with
      | |- forall _, _ => intro
      | |- returns (match ?x with _ => _ end) => destruct x
      end
    | apply returns_bind ].

Lemma returns_stop_resume o : returns (stop_resume o).
Proof. unfold stop_resume, set_process, set_promise. returns. Qed.

#[local] Hint Resolve returns_stop_resume : returns.

Lemma returns_resume_settled qs : returns (resume_settled qs).
Proof. induction qs as [|q rest IH]; simpl; returns. Qed.

#[local] Hint Resolve returns_resume_settled : returns.

Lemma returns_drain : returns drain.
Proof. unfold drain, set_stopping. returns. Qed.

#[local] Hint Resolve returns_drain : returns.

Lemma returns_step cfg ev : returns (step cfg ev).
Proof. destruct ev; simpl; unfold modify, set_spawned; returns. Qed.

(** ** Calls while a process is active *)

Section Busy.

Variable cfg : Config.

Lemma play_busy pathname loop w k :
  process w = Some k ->
  world_of (play cfg pathname loop w) = w /\
  spawns (trace_of (play cfg pathname loop w)) = [].
Proof.
  intros H. unfold play. destruct (channel cfg).
  - by rewrite sound_play_eq, (execute_busy _ _ _ _ H).
  - destruct (existsSync cfg pathname) eqn:E.
    + by rewrite video_play_found, (execute_busy _ _ _ _ H).
    + by rewrite video_play_missing.
Qed.

(** On an empty slot a [play] either spawns one child and fills the slot
    or, for a missing video file, changes nothing. *)
Lemma play_idle pathname loop w :
  process w = None ->
  (is_Some (process (world_of (play cfg pathname loop w))) /\
   length (spawns (trace_of (play cfg pathname loop w))) = 1) \/
  (world_of (play cfg pathname loop w) = w /\
   spawns (trace_of (play cfg pathname loop w)) = []).
Proof.
  intros H. unfold play. destruct (channel cfg).
  - left. rewrite sound_play_eq, execute_idle by done. simpl. eauto.
  - destruct (existsSync cfg pathname) eqn:E.
    + left. rewrite video_play_found, execute_idle by done. simpl. eauto.
    + right. by rewrite video_play_missing.
Qed.

Lemma play_normal pathname loop w :
  result_of (play cfg pathname loop w) = Normal tt.
Proof.
  unfold play. destruct (channel cfg).
  - rewrite sound_play_eq. by destruct (execute _ _ w) as [[r w1] t].
  - destruct (existsSync cfg pathname) eqn:E.
    + rewrite video_play_found by done. by destruct (execute _ _ w) as [[r w1] t].
    + by rewrite video_play_missing.
Qed.

Lemma step_play pathname loop w :
  step cfg (CallPlay pathname loop) w = play cfg pathname loop w.
Proof.
  simpl. unfold task. pose proof (play_normal pathname loop w) as H.
  destruct (play cfg pathname loop w) as [[[[]|e] w1] t]; [done|discriminate H].
Qed.

Lemma run_cons ev evs w :
  world_of (run cfg (ev :: evs) w) = world_of (run cfg evs (world_of (step cfg ev w))) /\
  trace_of (run cfg (ev :: evs) w) =
    trace_of (step cfg ev w) ++ trace_of (run cfg evs (world_of (step cfg ev w))).
Proof.
  destruct (returns_step cfg ev w) as [[] E].
  change (run cfg (ev :: evs)) with (bind (step cfg ev) (fun _ => run cfg evs)).
  unfold bind. destruct (step cfg ev w) as [[r w1] t1].
  unfold result_of in E. simpl in E. subst r.
  unfold world_of, trace_of. simpl.
  by destruct (run cfg evs w1) as [[r w2] t2].
Qed.

Lemma plays_while_busy calls w k :
  process w = Some k ->
  world_of (run cfg (play_calls calls) w) = w /\
  spawns (trace_of (run cfg (play_calls calls) w)) = [].
Proof.
  intros H. induction calls as [|[p l] rest [IH1 IH2]]; [done|].
  simpl play_calls. destruct (run_cons (CallPlay p l) (play_calls rest) w) as [-> ->].
  rewrite step_play. destruct (play_busy p l w k H) as [-> Hs].
  split; [done|]. unfold spawns in *. by rewrite List.filter_app, Hs, IH2.
Qed.

Lemma plays_spawn_once calls w :
  length (spawns (trace_of (run cfg (play_calls calls) w))) <= 1.
Proof.
  revert w. induction calls as [|[p l] rest IH]; intros w; [simpl; lia|].
  simpl play_calls. destruct (run_cons (CallPlay p l) (play_calls rest) w) as [_ ->].
  rewrite step_play. unfold spawns in *. rewrite List.filter_app, length_app.
  destruct (process w) as [k|] eqn:E.
  - destruct (play_busy p l w k E) as [-> Hs]. unfold spawns in Hs. rewrite Hs.
    simpl. apply IH.
  - destruct (play_idle p l w E) as [[[k Hk] Hs]|[-> Hs]]; unfold spawns in Hs.
    + destruct (plays_while_busy rest _ k Hk) as [_ Hr]. unfold spawns in Hr.
      rewrite Hs, Hr. simpl. lia.
    + rewrite Hs. simpl. apply IH.
Qed.

End Busy.

(** C3.  While a process is active, [execute] emits the warning and returns
    the no-op indicator; it spawns nothing and leaves the supervisor, its
    process included, as it was.  Any sequence of [play] calls made in that
    state leaves the state unchanged and spawns nothing, and any sequence of
    [play] calls at all spawns at most one process: the first call that
    finds the slot empty fills it. *)
Theorem execute_while_active_is_noop (cfg : Config) (w : World) (k : pid) :
  process w = Some k ->
  (forall args cb,
     execute args cb w = (Normal None, w, [Warn "Already on execution"])) /\
  (forall calls,
     world_of (run cfg (play_calls calls) w) = w /\
     spawns (trace_of (run cfg (play_calls calls) w)) = []) /\
  (forall calls w0,
     length (spawns (trace_of (run cfg (play_calls calls) w0))) <= 1) /\
  (forall args cb w0,
     process w0 = None ->
     spawns (trace_of (execute args cb w0)) =
       [Spawn (length (spawned w0)) "ffmpeg" args] /\
     forall calls,
       spawns (trace_of (run cfg (play_calls calls)
                           (world_of (execute args cb w0)))) = []).
Proof.
  intros H. split; [|split; [|split]].
  - intros args cb. by apply (execute_busy _ _ _ k).
  - intros calls. by apply (plays_while_busy cfg calls w k).
  - intros calls w0. apply plays_spawn_once.
  - intros args cb w0 H0. rewrite execute_idle by done. split; [done|].
    intros calls. by apply (plays_while_busy cfg calls _ (length (spawned w0))).
Qed.

Lemma execute_while_active_is_noop_witness :
  execute ["-re"] SoundDefault streaming
    = (Normal None, streaming, [Warn "Already on execution"]) /\
  world_of (run sound_cfg (play_calls [("a.mp3", false); ("b.mp3", true)]) streaming)
    = streaming.
Proof.
  destruct (execute_while_active_is_noop sound_cfg streaming 0 eq_refl)
    as (H1 & H2 & _).
  split; [apply H1 | apply H2].
Defined.

(** C6.  For a pathname that does not exist, [VideoContext.play] logs and
    returns normally: nothing is spawned, no fallback is invoked, nothing
    is thrown and the supervisor is unchanged; the same holds for [play] on
    a video controller. *)
Theorem video_play_missing_file (cfg : Config) (w : World)
    (pathname : string) (loop : bool) :
  existsSync cfg pathname = false ->
  let r := VideoContext.play cfg pathname loop w in
  result_of r = Normal tt /\
  world_of r = w /\
  In (Log ("Video file not found: " +++ pathname)) (trace_of r) /\
  spawns (trace_of r) = [] /\
  afters (trace_of r) = [] /\
  plays (trace_of r) = [Called Video pathname loop] /\
  (channel cfg = Video -> play cfg pathname loop w = r).
Proof.
  intros H r. subst r. rewrite video_play_missing by done.
  repeat split; simpl; auto.
  intros Hc. unfold play. rewrite Hc. by rewrite video_play_missing.
Qed.

Lemma video_play_missing_file_witness :
  world_of (VideoContext.play video_cfg "missing.mjpeg" true constructor) = constructor /\
  spawns (trace_of (VideoContext.play video_cfg "missing.mjpeg" true constructor)) = [].
Proof.
  destruct (video_play_missing_file video_cfg constructor "missing.mjpeg" true eq_refl)
    as (_ & H2 & _ & H4 & _).
  split; [exact H2 | exact H4].
Defined.

(** C9: what the code does.  On an empty slot [SoundContext.play_stdin] returns the
    input stream of the child it spawned.  While a process is active,
    [execute] returns [null] and [SoundContext.play_stdin] reads [.stdin] of it: the call
    throws a TypeError instead of returning an undefined handle. *)
Theorem play_stdin_throws_when_busy (cfg : Config) (w : World) (k : pid) :
  process w = Some k ->
  SoundContext.play_stdin cfg w = (Throws TypeError, w, [Warn "Already on execution"]).
Proof.
  intros H. unfold SoundContext.play_stdin, bind. by rewrite (execute_busy _ _ _ _ H).
Qed.

Lemma play_stdin_throws_when_busy_witness :
  SoundContext.play_stdin sound_cfg streaming
    = (Throws TypeError, streaming, [Warn "Already on execution"]).
Proof.
  apply (play_stdin_throws_when_busy sound_cfg streaming 0). reflexivity.
Defined.

Lemma play_stdin_idle (cfg : Config) (w : World) :
  process w = None ->
  result_of (SoundContext.play_stdin cfg w) = Normal (length (spawned w)).
Proof.
  intros H. unfold SoundContext.play_stdin, bind. by rewrite execute_idle.
Qed.

(** C10.  With the serverless flag set, [uploadFile] and [uploadDirectory]
    resolve to the empty string, whatever their arguments and the
    environment, and spawn no [aws] process. *)
Theorem serverless_uploads_are_noops (g : S3.Global) (env : S3.Env) :
  S3.isServerless g = true ->
  (forall filePath bucketName s3Path s3Args isAudio,
     let r := S3.uploadFile g env filePath bucketName s3Path s3Args isAudio in
     fst r = S3.Fulfilled EmptyString /\
     existsb S3.is_spawn (snd r) = false) /\
  (forall localDir bucketName s3Path s3Args,
     let r := S3.uploadDirectory g env localDir bucketName s3Path s3Args in
     fst r = S3.Fulfilled EmptyString /\
     existsb S3.is_spawn (snd r) = false).
Proof.
  intros H. split; intros; subst r.
  - unfold S3.uploadFile. by rewrite H.
  - unfold S3.uploadDirectory. by rewrite H.
Qed.

Lemma serverless_uploads_are_noops_witness :
  fst (S3.uploadFile serverless working_env "rec.mp4" "bucket" "k/rec.mp4" None false)
    = S3.Fulfilled EmptyString /\
  fst (S3.uploadDirectory serverless working_env "logs" "bucket" "k" None)
    = S3.Fulfilled EmptyString.
Proof.
  destruct (serverless_uploads_are_noops serverless working_env eq_refl) as [H1 H2].
  split; [apply H1 | apply H2].
Defined.

(** Without the flag the same upload spawns [aws] and resolves to the
    public URL. *)
Example upload_when_not_serverless :
  S3.uploadFile {| S3.isServerless := false; S3.remote := None |} working_env
    "rec.mp4" "bucket" "k/rec.mp4" None false
  = (S3.Fulfilled "https://bucket.s3.fr-par.scw.cloud/k/rec.mp4",
     [S3.Log "🔍 S3 upload command: aws s3 cp rec.mp4 s3://bucket/k/rec.mp4 --acl public-read";
      S3.Spawn "aws" ["s3"; "cp"; "rec.mp4"; "s3://bucket/k/rec.mp4";
                      "--acl"; "public-read"]]).
Proof. reflexivity. Qed.

(** ** Objects after a handler *)

Lemma detached_lookup k j sp a :
  sp !! j = Some a ->
  detached k j sp !! j =
    Some (with_listeners Stderr (Js.remove_listener k)
            (with_listeners Stdout (Js.remove_listener k) a)).
Proof.
  intros H. unfold detached. by rewrite !list_lookup_alter_eq, H.
Qed.

Lemma settled_lookup c k sp a :
  sp !! k = Some a ->
  settled_with c k sp !! k =
    Some (match completion a with
          | Pending => with_completion c a
          | _ => a
          end).
Proof.
  intros H. unfold settled_with. by rewrite list_lookup_alter_eq, H.
Qed.


(** C7.  When the process the supervisor holds exits with a code other
    than 0, its exit handler detaches the two listeners and resolves the
    completion signal with that code; it does not call the fallback and
    does not touch the slot, which the cleanup of [stop_process] clears. *)
Theorem nonzero_exit_resolves_only (cfg : Config) (w : World) (k : pid)
    (a : Activation) (code : option Z) :
  spawned w !! k = Some a ->
  process w = Some k ->
  Js.loose_eq_zero code = false ->
  let r := exit_handler cfg k (after a) code w in
  result_of r = Normal tt /\
  trace_of r = [exit_log code; RemoveListener k Stdout k;
                RemoveListener k Stderr k; Resolve k code] /\
  afters (trace_of r) = [] /\
  plays (trace_of r) = [] /\
  process (world_of r) = Some k /\
  promise (world_of r) = promise w /\
  (completion a = Pending ->
   completion <$> spawned (world_of r) !! k = Some (Fulfilled code)) /\
  slots (world_of (stop_resume (Fulfilled code) (world_of r))) = (None, None).
Proof.
  intros Ha Hk Hc r. subst r.
  rewrite (exit_handler_nonzero cfg _ _ _ _ _ Hk Hc).
  repeat split.
  intros Hp. cbn [world_of fst snd spawned].
  erewrite settled_lookup by (by apply detached_lookup).
  simpl. by rewrite Hp.
Qed.

Lemma nonzero_exit_resolves_only_witness :
  trace_of (exit_handler sound_cfg 0 StdinSequenceEnded (Some 255%Z) streaming)
    = [exit_log (Some 255%Z); RemoveListener 0 Stdout 0;
       RemoveListener 0 Stderr 0; Resolve 0 (Some 255%Z)] /\
  process (world_of (exit_handler sound_cfg 0 StdinSequenceEnded (Some 255%Z) streaming))
    = Some 0.
Proof.
  destruct (nonzero_exit_resolves_only sound_cfg streaming 0 _ (Some 255%Z)
              eq_refl eq_refl eq_refl) as (_ & H2 & _ & _ & H5 & _).
  split; [exact H2 | exact H5].
Defined.

(** ** The order of the exit handler *)

Ltac not_in := simpl; intuition discriminate.



Section ExitOrder.

Variable cfg : Config.

(** What the callback leaves in the trace when it runs on an empty slot:
    it never meets the warning of a busy [execute], and resolves
    nothing. *)
Lemma call_after_idle_trace cb w :
  process w = None ->
  exists w2 t,
    call_after cfg cb w = (Normal tt, w2, CallAfter cb :: t) /\
    ~ In (Warn "Already on execution") t /\
    (forall i, i < length (spawned w) -> spawned w2 !! i = spawned w !! i).
Proof.
  intros H. rewrite call_after_idle by done.
  destruct cb; [| destruct (existsSync cfg "../branding.mjpeg") |];
    eexists _, _; (split; [reflexivity|]); (split; [not_in|]);
    intros i Hi; try done; simpl; by rewrite lookup_app_l.
Qed.



End ExitOrder.



(** ** The fallback *)

(** C5, as stated, fails: the process [SoundContext.play_stdin] started is supervised by
    the audio controller, and its exit with code 0 triggers no [play] at
    all. *)
Lemma stream_exit_has_no_fallback :
  ~ (forall w k a,
       reachable sound_cfg w -> process w = Some k -> spawned w !! k = Some a ->
       plays (trace_of (exit_handler sound_cfg k (after a) (Some 0%Z) w))
         = [Called Sound "../silence.opus" false]).
Proof.
  intros H.
  specialize (H streaming 0 _ reachable_streaming eq_refl eq_refl).
  discriminate H.
Qed.

(** C5, amended: when a process exits with code 0 while the supervisor
    holds a process in its slot, the exit handler calls [after] exactly
    once.  For a process started by [SoundContext.play] that is one [play]
    of the silence asset with [loop = false], for one started by
    [VideoContext.play] one [play] of the branding asset with
    [loop = true]; for one started by [SoundContext.play_stdin] it is a warning and no
    [play]. *)
Theorem success_exit_fallback (cfg : Config) (w : World) (j k : pid)
    (cb : callback) :
  process w = Some j ->
  let r := exit_handler cfg k cb (Some 0%Z) w in
  (afters (trace_of r) = [CallAfter cb] /\
   plays (trace_of r) = fallback_of cb) /\
  (forall w0 pathname loop,
     process w0 = None ->
     after <$> spawned (world_of (SoundContext.play cfg pathname loop w0))
                 !! length (spawned w0) = Some SoundDefault) /\
  (forall w0 pathname loop,
     process w0 = None -> existsSync cfg pathname = true ->
     after <$> spawned (world_of (VideoContext.play cfg pathname loop w0))
                 !! length (spawned w0) = Some VideoDefault) /\
  (forall w0,
     process w0 = None ->
     after <$> spawned (world_of (SoundContext.play_stdin cfg w0))
                 !! length (spawned w0) = Some StdinSequenceEnded).
Proof.
  intros Hj r. subst r. split; [|split; [|split]].
  - rewrite (exit_handler_zero cfg k cb (Some 0%Z) w j Hj eq_refl). cbv zeta.
    rewrite call_after_idle by done.
    destruct cb; [| destruct (existsSync cfg "../branding.mjpeg") |]; done.
  - intros w0 pathname loop H0.
    rewrite sound_play_eq, execute_idle by done.
    cbn [world_of fst snd spawned]. by rewrite lookup_snoc.
  - intros w0 pathname loop H0 He.
    rewrite video_play_found, execute_idle by done.
    cbn [world_of fst snd spawned]. by rewrite lookup_snoc.
  - intros w0 H0. unfold SoundContext.play_stdin, bind. rewrite execute_idle by done.
    cbn [world_of fst snd spawned ret]. by rewrite lookup_snoc.
Qed.

Lemma success_exit_fallback_witness :
  plays (trace_of (exit_handler sound_cfg 0 SoundDefault (Some 0%Z) playing))
    = [Called Sound "../silence.opus" false] /\
  plays (trace_of (exit_handler sound_cfg 0 StdinSequenceEnded (Some 0%Z) streaming))
    = [].
Proof.
  split.
  - destruct (success_exit_fallback sound_cfg playing 0 0 SoundDefault eq_refl)
      as ((_ & H) & _). exact H.
  - destruct (success_exit_fallback sound_cfg streaming 0 0 StdinSequenceEnded eq_refl)
      as ((_ & H) & _). exact H.
Defined.

(** ** After [stop_process] *)

(** C4, as stated, fails: called on the supervisor whose streamed process
    has exited with code 0, [stop_process] returns at once and the
    completion signal of that process stays. *)
Lemma idle_stop_keeps_signal :
  ~ (forall w path w',
       reachable sound_cfg w -> resolved_stop w path w' ->
       process w' = None /\ promise w' = None).
Proof.
  intros H.
  destruct (H stream_ended AlreadyIdle stream_ended reachable_stream_ended) as [_ H'].
  - by apply (resolved_idle _ _ [Warn "Already stoped"]).
  - discriminate H'.
Qed.

(** C4, amended: after any [stop_process] call resolves the active-process
    slot is absent, and a following [execute] spawns a process, as does a
    following [play] on the sound controller or of an existing file.  When
    the call awaited the completion signal, resolved or rejected, the
    signal is absent as well; when the supervisor was already idle the call
    changes nothing, so a signal left by an earlier exit stays. *)
Theorem stop_leaves_slot_empty (w : World) (path : stop_path) (w' : World) :
  resolved_stop w path w' ->
  process w' = None /\
  (forall outcome, path = Awaited outcome -> promise w' = None) /\
  (path = AlreadyIdle -> w' = w) /\
  (forall args cb,
     let r := execute args cb w' in
     result_of r = Normal (Some (length (spawned w'))) /\
     spawns (trace_of r) = [Spawn (length (spawned w')) "ffmpeg" args] /\
     process (world_of r) = Some (length (spawned w'))) /\
  (forall cfg pathname loop,
     channel cfg = Sound \/ existsSync cfg pathname = true ->
     let r := play cfg pathname loop w' in
     length (spawns (trace_of r)) = 1 /\
     process (world_of r) = Some (length (spawned w'))).
Proof.
  intros H.
  assert (Hidle : process w' = None).
  { destruct H as [w' t H|o Ho].
    - unfold stop_process, bind, get in H. cbn [fst snd] in H.
      destruct (process w) as [p|] eqn:E.
      + destruct (kill p "SIGTERM" w) as [[[res|e] w1] t1]; [|discriminate H].
        cbn in H. destruct (promise w1); discriminate H.
      + by injection H as <- _.
    - unfold stop_resume. by destruct o. }
  split; [exact Hidle|]. split; [|split; [|split]].
  - intros o ->. inversion H; subst. unfold stop_resume. by destruct o.
  - intros ->. inversion H as [w1 t H1|]; subst.
    unfold stop_process, bind, get in H1. cbn [fst snd] in H1.
    destruct (process w) as [p|] eqn:E.
    + destruct (kill p "SIGTERM" w) as [[[res|e] w2] t1]; [|discriminate H1].
      cbn in H1. destruct (promise w2); discriminate H1.
    + by injection H1 as <- _.
  - intros args cb r. subst r. by rewrite execute_idle.
  - intros cfg pathname loop Hc r. subst r. unfold play.
    destruct (channel cfg) eqn:Ech.
    + by rewrite sound_play_eq, execute_idle.
    + destruct Hc as [Hc|Hc]; [discriminate Hc|].
      by rewrite video_play_found, execute_idle.
Qed.

Lemma stop_leaves_slot_empty_witness :
  slots (world_of (stop_resume (Rejected "Error: spawn ffmpeg ENOENT") streaming))
    = (None, None) /\
  process stream_ended = None.
Proof.
  split.
  - destruct (stop_leaves_slot_empty streaming
                (Awaited (Rejected "Error: spawn ffmpeg ENOENT")) _
                (resolved_awaited streaming (Rejected "Error: spawn ffmpeg ENOENT")
                   eq_refl)) as (H1 & H2 & _).
    unfold slots. by rewrite H1, (H2 _ eq_refl).
  - destruct (stop_leaves_slot_empty stream_ended AlreadyIdle stream_ended
                (resolved_idle stream_ended stream_ended _ eq_refl)) as (H1 & _).
    exact H1.
Defined.

(** On a reachable supervisor [stop_process] does not throw: a present
    slot comes with the promise to await. *)
Lemma stop_process_returns (cfg : Config) (w : World) :
  reachable cfg w -> exists s, result_of (stop_process w) = Normal s.
Proof.
  intros Hr. pose proof (reachable_paired cfg w Hr) as Hp.
  destruct w as [[p|] q sp st]; [|by exists StopReturned].
  specialize (Hp p eq_refl). simpl in Hp. subst q.
  by exists (StopAwaiting p).
Qed.

(** ** A fallback process outliving a stop *)

(** C8: what the code does on [stop_race].  The listeners of the second
    child were attached by [execute]; its exit handler finds the slot empty
    and throws at [this.process.stdout] before any [removeListener], so
    both listeners stay attached after the exit and the completion signal
    of the child never settles. *)
Theorem fallback_exit_after_stop_leaks :
  let r := run sound_cfg stop_race constructor in
  In (AddListener 1 Stdout 1) (trace_of r) /\
  In (AddListener 1 Stderr 1) (trace_of r) /\
  In (Thrown TypeError) (trace_of r) /\
  (forall j s, ~ In (RemoveListener j s 1) (trace_of r)) /\
  process (world_of r) = None /\
  spawned (world_of r) !! 1 =
    Some {| spawnargs := sound_args sound_cfg "../silence.opus" false;
            stdout_listeners := [1]; stderr_listeners := [1];
            signals := []; exited := true; completion := Pending;
            after := SoundDefault |}.
Proof.
  vm_compute. repeat split; try tauto.
  intros j s H. intuition discriminate.
Qed.

(** * Further properties *)

(** ** Recording modes *)

(** X1.  [normalizeRecordingMode] always answers one of the three
    snake_case modes, a second pass changes nothing and never warns, the
    PascalCase and snake_case spellings of a mode agree, and a warning is
    printed exactly for the strings that are none of the six spellings. *)
Theorem normalizeRecordingMode_normal (mode : string) :
  let r := Recording.normalizeRecordingMode mode in
  (fst r = "speaker_view" \/ fst r = "gallery_view" \/ fst r = "audio_only") /\
  Recording.normalizeRecordingMode (fst r) = (fst r, []) /\
  (snd r = [] <->
   In mode ["speaker_view"; "SpeakerView"; "gallery_view"; "GalleryView";
            "audio_only"; "AudioOnly"]) /\
  (snd r <> [] -> fst r = "speaker_view").
Proof.
  unfold Recording.normalizeRecordingMode.
  destruct (String.eqb_spec mode "speaker_view") as [->|N1]; [simpl; intuition|].
  destruct (String.eqb_spec mode "SpeakerView") as [->|N2]; [simpl; intuition|].
  destruct (String.eqb_spec mode "gallery_view") as [->|N3]; [simpl; intuition|].
  destruct (String.eqb_spec mode "GalleryView") as [->|N4]; [simpl; intuition|].
  destruct (String.eqb_spec mode "audio_only") as [->|N5]; [simpl; intuition|].
  destruct (String.eqb_spec mode "AudioOnly") as [->|N6]; [simpl; intuition|].
  simpl. repeat split; auto; try discriminate.
  intros [E|[E|[E|[E|[E|[E|[]]]]]]]; congruence.
Qed.

(** ** Splitting and joining on spaces *)

Lemma append_cons (x : ascii) (a b : string) :
  String x a +++ b = String x (a +++ b).
Proof. reflexivity. Qed.

Lemma append_assoc (a b c : string) : (a +++ b) +++ c = a +++ (b +++ c).
Proof.
  induction a as [|x a IH]; [reflexivity|]. by rewrite !append_cons, IH.
Qed.

Lemma append_empty_r (a : string) : a +++ EmptyString = a.
Proof.
  induction a as [|x a IH]; [reflexivity|]. by rewrite append_cons, IH.
Qed.

Lemma split_space_aux_cons cur s :
  exists x rest, Js.split_space_aux cur s = x :: rest.
Proof.
  revert cur. induction s as [|c s IH]; intros cur; simpl; [by eauto|].
  destruct (Ascii.eqb c " "); [by eauto|]. apply IH.
Qed.

Lemma join_split_aux cur s :
  Js.join_space (Js.split_space_aux cur s) = cur +++ s.
Proof.
  unfold Js.join_space. revert cur.
  induction s as [|c s IH]; intros cur; simpl.
  - by rewrite append_empty_r.
  - destruct (Ascii.eqb_spec c " ") as [->|N].
    + destruct (split_space_aux_cons EmptyString s) as (x & rest & E).
      specialize (IH EmptyString). rewrite E in *. simpl in *.
      by rewrite IH.
    + rewrite IH, append_assoc. done.
Qed.

(** X2.  [s.split(' ')] never gives an empty array, and joining its result
    with spaces gives [s] back: the arguments read from [S3_ARGS] appear in
    the logged command exactly as the variable spells them. *)
Theorem join_split_space (s : string) :
  Js.split_space s <> [] /\
  Js.join_space (Js.split_space s) = s.
Proof.
  unfold Js.split_space. split.
  - destruct (split_space_aux_cons EmptyString s) as (x & rest & ->). done.
  - by rewrite join_split_aux.
Qed.

(** ** The device names *)

Lemma env_or_truthy v dflt :
  Js.truthy dflt = true -> Js.truthy (Js.env_or v dflt) = true.
Proof.
  intros H. unfold Js.env_or. destruct v as [s|]; [|done].
  by destruct (Js.truthy s) eqn:E.
Qed.

(** X3.  Whatever the environment holds, unset or empty variables
    included, the microphone device is ["pulse:"] followed by a non-empty
    sink name and the camera device is a non-empty path; with both
    variables unset they are the two defaults. *)
Theorem devices_are_named (cfg : Config) :
  (exists sink, MICRO_DEVICE cfg = "pulse:" +++ sink /\ sink <> EmptyString) /\
  CAMERA_DEVICE cfg <> EmptyString /\
  (VIRTUAL_MIC cfg = None \/ VIRTUAL_MIC cfg = Some EmptyString ->
   MICRO_DEVICE cfg = "pulse:virtual_mic") /\
  (VIDEO_DEVICE cfg = None \/ VIDEO_DEVICE cfg = Some EmptyString ->
   CAMERA_DEVICE cfg = "/dev/video10").
Proof.
  assert (Hne : forall s, Js.truthy s = true -> s <> EmptyString).
  { intros s H ->. discriminate H. }
  split; [|split; [|split]].
  - exists (Js.env_or (VIRTUAL_MIC cfg) "virtual_mic"). split; [done|].
    by apply Hne, env_or_truthy.
  - by apply Hne, env_or_truthy.
  - unfold MICRO_DEVICE. by intros [->| ->].
  - unfold CAMERA_DEVICE. by intros [->| ->].
Qed.

(** ** The uploader *)

Section Aws.

Variable env : S3.Env.
Variables what bucketName s3Path : string.

Let handle := S3.handle env what bucketName s3Path.

Lemma fold_data pre h :
  Forall (fun ev => is_data ev = true) pre ->
  let h' := fold_left handle pre h in
  S3.output h' = S3.output h +++ stdout_of pre /\
  S3.errorOutput h' = S3.errorOutput h +++ stderr_of pre /\
  S3.settled h' = S3.settled h.
Proof.
  intros H. revert h. induction H as [|ev pre Hev _ IH]; intros h; simpl.
  - by rewrite !append_empty_r.
  - destruct (IH (handle h ev)) as (E1 & E2 & E3).
    rewrite E1, E2, E3.
    destruct ev as [data|data| |]; try discriminate Hev; simpl;
      by rewrite ?append_assoc.
Qed.

Lemma fold_settled evs h :
  S3.settled h <> S3.Pending ->
  S3.settled (fold_left handle evs h) = S3.settled h.
Proof.
  revert h. induction evs as [|ev evs IH]; intros h Hs; [done|].
  simpl. assert (E : S3.settled (handle h ev) = S3.settled h).
  { destruct ev as [data|data|message|code]; simpl; try done.
    - unfold S3.settle. by destruct (S3.settled h).
    - destruct (Js.strict_eq_zero code); simpl; unfold S3.settle;
        by destruct (S3.settled h). }
  rewrite IH; [done|]. by rewrite E.
Qed.

Lemma fold_first_terminal pre ev post h :
  Forall (fun e => is_data e = true) pre ->
  is_data ev = false ->
  S3.settled h = S3.Pending ->
  S3.output h = EmptyString ->
  S3.errorOutput h = EmptyString ->
  S3.settled (fold_left handle (pre ++ ev :: post) h)
    = verdict env what bucketName s3Path pre ev.
Proof.
  intros Hpre Hev Hs Ho He. rewrite fold_left_app. simpl.
  destruct (fold_data pre h Hpre) as (E1 & E2 & E3).
  rewrite Ho in E1. rewrite He in E2. rewrite Hs in E3.
  set (h1 := fold_left handle pre h) in *.
  assert (E : S3.settled (handle h1 ev)
              = verdict env what bucketName s3Path pre ev).
  { destruct ev as [data|data|message|code]; try discriminate Hev; simpl.
    - unfold S3.settle. by rewrite E3.
    - destruct (Js.strict_eq_zero code); simpl; unfold S3.settle;
        by rewrite E3, ?E1, ?E2. }
  destruct ev as [data|data|message|code]; try discriminate Hev.
  - rewrite fold_settled; [done|]. by rewrite E.
  - rewrite fold_settled; [done|]. rewrite E. simpl.
    by destruct (Js.strict_eq_zero code).
Qed.

Lemma fold_fulfilled evs h u :
  S3.settled (fold_left handle evs h) = S3.Fulfilled u ->
  S3.settled h = S3.Fulfilled u \/
  (u = public_url env bucketName s3Path /\ In (S3.Close (Some 0%Z)) evs).
Proof.
  revert h. induction evs as [|ev evs IH]; intros h H; [by left|].
  simpl in H. destruct (IH _ H) as [Hh|[Hu Hin]].
  - destruct ev as [data|data|message|code]; simpl in Hh; try (by left).
    + unfold S3.settle in Hh. destruct (S3.settled h); try discriminate Hh.
      by left.
    + destruct (Js.strict_eq_zero code) eqn:Ez; simpl in Hh;
        unfold S3.settle in Hh;
        destruct (S3.settled h) eqn:Es; try discriminate Hh; try (by left).
      right. injection Hh as <-. split; [done|]. left.
      destruct code as [n|]; [|discriminate Ez].
      simpl in Ez. apply Z.eqb_eq in Ez. by subst n.
  - right. split; [done|]. by right.
Qed.

Lemma fold_printed_no_spawn evs h :
  aws_spawns (S3.printed h) = [] ->
  aws_spawns (S3.printed (fold_left handle evs h)) = [].
Proof.
  revert h. induction evs as [|ev evs IH]; intros h H; [done|].
  simpl. apply IH.
  destruct ev as [data|data|message|code]; simpl; try done;
    unfold aws_spawns in *; rewrite ?List.filter_app, ?H; try done.
  destruct (Js.strict_eq_zero code); simpl; [done|].
  by rewrite List.filter_app, H.
Qed.

End Aws.

Lemma uploadFile_spawned g env filePath bucketName s3Path s3Args isAudio :
  S3.isServerless g = false ->
  S3.access env filePath = true ->
  S3.uploadFile g env filePath bucketName s3Path s3Args isAudio =
    let args := upload_args g env filePath bucketName s3Path s3Args in
    let h := fold_left (S3.handle env "upload" bucketName s3Path) (S3.aws env args)
               {| S3.output := EmptyString; S3.errorOutput := EmptyString;
                  S3.settled := S3.Pending; S3.printed := [] |} in
    (S3.settled h,
     S3.Log ("🔍 S3 upload command: aws " +++ Js.join_space args)
       :: S3.Spawn "aws" args :: S3.printed h).
Proof.
  intros Hs Ha. unfold S3.uploadFile. by rewrite Hs, Ha.
Qed.

Lemma uploadDirectory_spawned g env localDir bucketName s3Path s3Args :
  S3.isServerless g = false ->
  S3.uploadDirectory g env localDir bucketName s3Path s3Args =
    let args := sync_args g env localDir bucketName s3Path s3Args in
    let h := fold_left (S3.handle env "sync" bucketName s3Path) (S3.aws env args)
               {| S3.output := EmptyString; S3.errorOutput := EmptyString;
                  S3.settled := S3.Pending; S3.printed := [] |} in
    (S3.settled h,
     S3.Log ("🔍 S3 sync command: aws " +++ Js.join_space args)
       :: S3.Spawn "aws" args :: S3.printed h).
Proof.
  intros Hs. unfold S3.uploadDirectory. by rewrite Hs.
Qed.

(** X4.  Outside serverless mode, the promise of [uploadFile] (for an
    accessible file) and of [uploadDirectory] settles on the first 'error'
    or 'close' event of [aws] and ignores every later event: a close with
    code 0 fulfils it with the public URL, any other close rejects it with
    the code and what [aws] had printed until then on stderr, or on stdout
    when stderr was empty, and an 'error' rejects it with the start
    failure. *)
Theorem upload_settles_on_first_event (g : S3.Global) (env : S3.Env)
    (path bucketName s3Path : string) (s3Args : option (list string))
    (pre post : list S3.AwsEvent) (ev : S3.AwsEvent) :
  S3.isServerless g = false ->
  Forall (fun e => is_data e = true) pre ->
  is_data ev = false ->
  (S3.access env path = true ->
   S3.aws env (upload_args g env path bucketName s3Path s3Args)
     = pre ++ ev :: post ->
   forall isAudio,
     fst (S3.uploadFile g env path bucketName s3Path s3Args isAudio)
       = verdict env "upload" bucketName s3Path pre ev) /\
  (S3.aws env (sync_args g env path bucketName s3Path s3Args)
     = pre ++ ev :: post ->
   fst (S3.uploadDirectory g env path bucketName s3Path s3Args)
     = verdict env "sync" bucketName s3Path pre ev).
Proof.
  intros Hs Hpre Hev. split.
  - intros Ha E isAudio. rewrite uploadFile_spawned by done. cbv zeta.
    rewrite E. cbn [fst]. by apply fold_first_terminal.
  - intros E. rewrite uploadDirectory_spawned by done. cbv zeta.
    rewrite E. cbn [fst]. by apply fold_first_terminal.
Qed.

Lemma upload_settles_on_first_event_witness :
  fst (S3.uploadFile local_global failing_env "rec.mp4" "bucket" "k/rec.mp4" None false)
    = S3.Rejected "S3 upload failed (1): denied".
Proof.
  refine (proj1 (upload_settles_on_first_event local_global failing_env
            "rec.mp4" "bucket" "k/rec.mp4" None
            [S3.StdoutData "upload: "; S3.StderrData "denied"]
            [S3.Close (Some 0%Z)] (S3.Close (Some 1%Z)) eq_refl _ eq_refl)
            eq_refl eq_refl false).
  repeat constructor.
Defined.

(** X5.  When [aws] emits output only, neither 'close' nor 'error', the
    promise of an upload stays pending for ever. *)
Theorem upload_pending_without_close (g : S3.Global) (env : S3.Env)
    (path bucketName s3Path : string) (s3Args : option (list string)) :
  S3.isServerless g = false ->
  (S3.access env path = true ->
   Forall (fun e => is_data e = true)
     (S3.aws env (upload_args g env path bucketName s3Path s3Args)) ->
   forall isAudio,
     fst (S3.uploadFile g env path bucketName s3Path s3Args isAudio) = S3.Pending) /\
  (Forall (fun e => is_data e = true)
     (S3.aws env (sync_args g env path bucketName s3Path s3Args)) ->
   fst (S3.uploadDirectory g env path bucketName s3Path s3Args) = S3.Pending).
Proof.
  intros Hs. split.
  - intros Ha H isAudio. rewrite uploadFile_spawned by done. cbv zeta. cbn [fst].
    by destruct (fold_data env "upload" bucketName s3Path _
                   {| S3.output := EmptyString; S3.errorOutput := EmptyString;
                      S3.settled := S3.Pending; S3.printed := [] |} H)
      as (_ & _ & ->).
  - intros H. rewrite uploadDirectory_spawned by done. cbv zeta. cbn [fst].
    by destruct (fold_data env "sync" bucketName s3Path _
                   {| S3.output := EmptyString; S3.errorOutput := EmptyString;
                      S3.settled := S3.Pending; S3.printed := [] |} H)
      as (_ & _ & ->).
Qed.

Lemma upload_pending_without_close_witness :
  fst (S3.uploadDirectory local_global
         {| S3.ENV_S3_ENDPOINT := None; S3.ENV_S3_ARGS := None;
            S3.access := fun _ => true;
            S3.aws := fun _ => [S3.StdoutData "Completed 1 part"] |}
         "logs" "bucket" "k" None) = S3.Pending.
Proof.
  refine (proj2 (upload_pending_without_close local_global _ "logs" "bucket" "k"
                   None eq_refl) _).
  repeat constructor.
Defined.

(** X6.  If the promise of [uploadFile] is fulfilled, then either the
    process is serverless and the value is the empty string, or the file was
    accessible, [aws] closed with code 0, and the value is the public URL
    [https://<bucket>.<endpoint>/<key>]. *)
Theorem uploadFile_fulfilled_only_on_success (g : S3.Global) (env : S3.Env)
    (filePath bucketName s3Path : string) (s3Args : option (list string))
    (isAudio : bool) (u : string) :
  fst (S3.uploadFile g env filePath bucketName s3Path s3Args isAudio)
    = S3.Fulfilled u ->
  (S3.isServerless g = true /\ u = EmptyString) \/
  (S3.isServerless g = false /\
   S3.access env filePath = true /\
   u = public_url env bucketName s3Path /\
   In (S3.Close (Some 0%Z))
      (S3.aws env (upload_args g env filePath bucketName s3Path s3Args))).
Proof.
  intros H. destruct (S3.isServerless g) eqn:Hs.
  - left. unfold S3.uploadFile in H. rewrite Hs in H. by injection H as <-.
  - right. destruct (S3.access env filePath) eqn:Ha.
    + rewrite uploadFile_spawned in H by done. cbv zeta in H. cbn [fst] in H.
      apply fold_fulfilled in H as [H|[-> Hin]]; [discriminate H|done].
    + unfold S3.uploadFile in H. rewrite Hs, Ha in H. discriminate H.
Qed.

Lemma uploadFile_fulfilled_only_on_success_witness :
  In (S3.Close (Some 0%Z))
     (S3.aws working_env
        (upload_args local_global working_env "rec.mp4" "bucket" "k/rec.mp4" None)).
Proof.
  destruct (uploadFile_fulfilled_only_on_success local_global working_env
              "rec.mp4" "bucket" "k/rec.mp4" None false
              "https://bucket.s3.fr-par.scw.cloud/k/rec.mp4" eq_refl)
    as [[H _]|(_ & _ & _ & H)]; [discriminate H|exact H].
Defined.

(** X7.  Outside serverless mode [uploadFile] spawns [aws] exactly once
    when the file is accessible and not at all when it is not (the promise
    is then rejected with "File does not exist"); [uploadDirectory] makes no
    such check and always spawns [aws] exactly once. *)
Theorem uploads_spawn_once (g : S3.Global) (env : S3.Env)
    (path bucketName s3Path : string) (s3Args : option (list string)) :
  S3.isServerless g = false ->
  (forall isAudio,
     let r := S3.uploadFile g env path bucketName s3Path s3Args isAudio in
     if S3.access env path then
       aws_spawns (snd r)
         = [S3.Spawn "aws" (upload_args g env path bucketName s3Path s3Args)]
     else
       aws_spawns (snd r) = [] /\
       fst r = S3.Rejected ("File does not exist: " +++ path)) /\
  aws_spawns (snd (S3.uploadDirectory g env path bucketName s3Path s3Args))
    = [S3.Spawn "aws" (sync_args g env path bucketName s3Path s3Args)].
Proof.
  intros Hs. split.
  - intros isAudio r. subst r. destruct (S3.access env path) eqn:Ha.
    + rewrite uploadFile_spawned by done. cbv zeta. cbn [snd].
      unfold aws_spawns. cbn [List.filter S3.is_spawn]. f_equal.
      by apply (fold_printed_no_spawn env).
    + unfold S3.uploadFile. by rewrite Hs, Ha.
  - rewrite uploadDirectory_spawned by done. cbv zeta. cbn [snd].
    unfold aws_spawns. cbn [List.filter S3.is_spawn]. f_equal.
    by apply (fold_printed_no_spawn env).
Qed.

Lemma uploads_spawn_once_witness :
  aws_spawns (snd (S3.uploadDirectory local_global failing_env "missing" "bucket" "k" None))
    = [S3.Spawn "aws" (sync_args local_global failing_env "missing" "bucket" "k" None)].
Proof.
  exact (proj2 (uploads_spawn_once local_global failing_env "missing" "bucket" "k"
                  None eq_refl)).
Defined.

(** ** The singleton and [s3cp] *)

Lemma getInstance_times_serverless g n m :
  S3.isServerless g = true ->
  getInstance_times g n m = (repeat None n, m).
Proof.
  intros Hs. induction n as [|n IH]; [done|].
  simpl. unfold S3.getInstance. by rewrite Hs, IH.
Qed.

Lemma getInstance_times_set g n m i :
  S3.isServerless g = false ->
  S3.instance m = Some i ->
  getInstance_times g n m = (repeat (Some i) n, m).
Proof.
  intros Hs Hi. induction n as [|n IH]; [done|].
  simpl. unfold S3.getInstance. by rewrite Hs, Hi, IH.
Qed.

(** X8.  From the module as loaded, any number of [getInstance] calls
    outside serverless mode return one and the same object, made by the
    first call and never made again; in serverless mode every call returns
    [null] and no object is ever made. *)
Theorem getInstance_is_a_singleton (g : S3.Global) (n : nat) :
  let r := getInstance_times g (S n) no_instance in
  if S3.isServerless g then
    fst r = repeat None (S n) /\ snd r = no_instance
  else
    fst r = repeat (Some 0) (S n) /\
    snd r = {| S3.instance := Some 0; S3.created := 1 |}.
Proof.
  cbv zeta. destruct (S3.isServerless g) eqn:Hs.
  - by rewrite getInstance_times_serverless.
  - change (getInstance_times g (S n) no_instance)
      with (let '(r, m1, _) := S3.getInstance g no_instance in
            let '(rs, m2) := getInstance_times g n m1 in (r :: rs, m2)).
    unfold S3.getInstance. rewrite Hs. cbn [S3.instance no_instance S3.created].
    by rewrite (getInstance_times_set g n _ 0).
Qed.

(** X9.  [s3cp] goes through [getInstance]: in serverless mode the
    instance is [null] and the call throws a TypeError instead of resolving
    to the empty string, whatever the state of the module, and nothing is
    spawned.  Outside serverless mode it returns a promise: with no
    [remote] in the meeting parameters the promise is rejected and nothing
    is spawned, and with a [remote] it settles as [uploadFile] does on the
    log bucket of that [remote]. *)
Theorem s3cp_paths (g : S3.Global) (env : S3.Env) (m : S3.Singleton)
    (local s3path : string) (s3_args : list string) :
  let r := S3.s3cp g env m local s3path s3_args in
  match S3.isServerless g, S3.remote g with
  | true, _ =>
      fst (fst r) =
        S3.Threw "Cannot read properties of null (reading 'uploadToDefaultBucket')" /\
      aws_spawns (snd r) = []
  | false, None =>
      fst (fst r) =
        S3.Returned (S3.Rejected
          "Cannot read properties of null (reading 'aws_s3_log_bucket')") /\
      aws_spawns (snd r) = []
  | false, Some remote =>
      fst (fst r) =
        S3.Returned (fst (S3.uploadFile g env local (S3.aws_s3_log_bucket remote)
                            s3path (Some s3_args) false))
  end.
Proof.
  unfold S3.s3cp, S3.getInstance, S3.uploadToDefaultBucket.
  destruct (S3.isServerless g) eqn:Hs; [done|].
  destruct (S3.remote g) as [remote|] eqn:Hr.
  - destruct (S3.instance m);
      by destruct (S3.uploadFile g env local _ s3path (Some s3_args) false).
  - by destruct (S3.instance m).
Qed.

(** ** The arguments of [aws] *)

Lemma env_args_nil (v : option string) :
  match v with
  | Some s => if Js.truthy s then Js.split_space s else []
  | None => []
  end = [] <->
  v = None \/ v = Some EmptyString.
Proof.
  destruct v as [[|c s]|]; [by intuition auto| |by intuition auto].
  change (Js.truthy (String c s)) with true. cbv iota. unfold Js.split_space.
  destruct (split_space_aux_cons EmptyString (String c s)) as (x & rest & ->).
  split; [discriminate|]. intros [E|E]; discriminate E.
Qed.

(** X10.  [getS3Args] answers a non-empty argument as it is; it answers
    the empty list only when the argument is absent or empty, the [remote]
    arguments are absent or empty, and [S3_ARGS] is unset or empty. *)
Theorem getS3Args_sources (g : S3.Global) (env : S3.Env)
    (s3Args : option (list string)) :
  (forall x xs, s3Args = Some (x :: xs) -> S3.getS3Args g env s3Args = x :: xs) /\
  (S3.getS3Args g env s3Args = [] <->
   (s3Args = None \/ s3Args = Some []) /\
   (S3.remote g = None \/ S3.s3_args <$> S3.remote g = Some []) /\
   (S3.ENV_S3_ARGS env = None \/ S3.ENV_S3_ARGS env = Some EmptyString)).
Proof.
  split; [by intros x xs ->|].
  pose proof (env_args_nil (S3.ENV_S3_ARGS env)) as He.
  unfold S3.getS3Args.
  destruct s3Args as [[|x xs]|];
    [| split; [discriminate|intros [[E|E] _]; discriminate E] |];
    (destruct (S3.remote g) as [r|]; simpl;
     [ destruct (S3.s3_args r) as [|y ys];
       [ rewrite He; by intuition auto
       | split; [discriminate|intros (_ & [E|E] & _); discriminate E] ]
     | rewrite He; by intuition auto ]).
Qed.

(** * Further properties of the media supervisor *)

(** ** Properties every step maintains *)

Lemma maintains_bind {A B} I (c : M A) (k : A -> M B) :
  maintains I c -> (forall a, maintains I (k a)) -> maintains I (bind c k).
Proof.
  intros Hc Hk w Hw. specialize (Hc w Hw).
  destruct (c w) as [[[a|e] w1] t1] eqn:E.
  - rewrite (bind_world_normal _ _ _ _ _ _ E). by apply Hk.
  - by rewrite (bind_world_throws _ _ _ _ _ _ E).
Qed.

Lemma maintains_task {A} I (c : M A) : maintains I c -> maintains I (task c).
Proof.
  intros H w Hw. specialize (H w Hw). unfold task.
  by destruct (c w) as [[[a|e] w1] t1].
Qed.

Lemma maintains_ret {A} I (a : A) : maintains I (ret a).
Proof. by intros w. Qed.

Lemma maintains_throw {A} I e : maintains I (@throw A e).
Proof. by intros w. Qed.

Lemma maintains_emit I e : maintains I (emit e).
Proof. by intros w. Qed.

Lemma maintains_get I : maintains I get.
Proof. by intros w. Qed.

Create HintDb maintains.
#[local] Hint Resolve maintains_ret maintains_throw maintains_emit maintains_get
  : maintains.

Ltac maintained :=
  repeat first
    [ solve [auto with maintains]
    | match goal with
      | |- forall _, _ => intro
      | |- maintains _ (match ?x with _ => _ end) => destruct x
      end
    | apply maintains_task
    | apply maintains_bind ].

(** A property that the writes of the model maintain is maintained by every
    step of the event loop. *)
Section Maintained.

Variable I : World -> Prop.

Hypothesis I_execute : forall args cb, maintains I (execute args cb).
Hypothesis I_removeListener : forall s l, maintains I (removeListener s l).
Hypothesis I_resolve : forall k code, maintains I (resolve k code).
Hypothesis I_reject : forall k err, maintains I (reject k err).
Hypothesis I_kill : forall p sig, maintains I (kill p sig).
Hypothesis I_exited : forall k, maintains I (modify k with_exited).
Hypothesis I_set_process : maintains I (set_process None).
Hypothesis I_set_promise : maintains I (set_promise None).
Hypothesis I_set_stopping : forall l, maintains I (set_stopping l).

Hint Resolve I_execute I_removeListener I_resolve I_reject I_kill I_exited
  I_set_process I_set_promise I_set_stopping : maintains.

Variable cfg : Config.

Lemma maintains_sound_play pathname loop :
  maintains I (SoundContext.play cfg pathname loop).
Proof. unfold SoundContext.play. maintained. Qed.

Lemma maintains_video_play pathname loop :
  maintains I (VideoContext.play cfg pathname loop).
Proof. unfold VideoContext.play. maintained. Qed.

Lemma maintains_play_stdin : maintains I (SoundContext.play_stdin cfg).
Proof. unfold SoundContext.play_stdin. maintained. Qed.

Hint Resolve maintains_sound_play maintains_video_play maintains_play_stdin
  : maintains.

Lemma maintains_call_after cb : maintains I (call_after cfg cb).
Proof.
  unfold call_after, SoundContext.default, VideoContext.default. maintained.
Qed.

Hint Resolve maintains_call_after : maintains.

Lemma maintains_exit_handler k cb code : maintains I (exit_handler cfg k cb code).
Proof. unfold exit_handler. maintained. Qed.

Lemma maintains_error_handler k err : maintains I (error_handler k err).
Proof. unfold error_handler. maintained. Qed.

Lemma maintains_stop_process : maintains I stop_process.
Proof. unfold stop_process. maintained. Qed.

Lemma maintains_stop_resume o : maintains I (stop_resume o).
Proof. unfold stop_resume. maintained. Qed.

Hint Resolve maintains_exit_handler maintains_error_handler
  maintains_stop_process maintains_stop_resume : maintains.

Lemma maintains_resume_settled qs : maintains I (resume_settled qs).
Proof. induction qs as [|q rest IH]; simpl; maintained. Qed.

Hint Resolve maintains_resume_settled : maintains.

Lemma maintains_drain : maintains I drain.
Proof. unfold drain. maintained. Qed.

Hint Resolve maintains_drain : maintains.

Lemma maintains_step ev : maintains I (step cfg ev).
Proof. destruct ev; simpl; unfold play; maintained. Qed.

Hint Resolve maintains_step : maintains.

Lemma maintains_run evs : maintains I (run cfg evs).
Proof. induction evs as [|ev rest IH]; simpl; maintained. Qed.

End Maintained.

(** ** What the writes do to the children *)

Lemma modify_world p f w :
  world_of (modify p f w) =
    {| process := process w; promise := promise w;
       spawned := alter f p (spawned w); stopping := stopping w |}.
Proof. reflexivity. Qed.

Lemma removeListener_world s l w :
  world_of (removeListener s l w) =
    match process w with
    | Some p => world_of (modify p (with_listeners s (Js.remove_listener l)) w)
    | None => w
    end.
Proof. by destruct w as [[p|] q sp st]. Qed.

Lemma resolve_world k code w :
  world_of (resolve k code w) =
    world_of (modify k (fun a => match completion a with
                                 | Pending => with_completion (Fulfilled code) a
                                 | _ => a
                                 end) w).
Proof. reflexivity. Qed.

Lemma reject_world k err w :
  world_of (reject k err w) =
    world_of (modify k (fun a => match completion a with
                                 | Pending => with_completion (Rejected err) a
                                 | _ => a
                                 end) w).
Proof. reflexivity. Qed.

Lemma kill_world p sig w :
  world_of (kill p sig w) = world_of (modify p (with_signal sig) w).
Proof. reflexivity. Qed.

Lemma execute_world args cb w :
  world_of (execute args cb w) =
    match process w with
    | Some _ => w
    | None => started args cb w
    end.
Proof.
  destruct (process w) as [k|] eqn:E.
  - by rewrite (execute_busy _ _ _ _ E).
  - by rewrite execute_idle.
Qed.

(** ** At most one listener on a stream *)

Lemma remove_listener_own l k xs :
  xs = [] \/ xs = [k] ->
  Js.remove_listener l xs = [] \/ Js.remove_listener l xs = [k].
Proof.
  intros [->| ->]; [by left|].
  unfold Js.remove_listener. simpl. destruct (Nat.eqb k l); auto.
Qed.

Lemma own_listeners_modify p f :
  (forall a s k,
     listeners s a = [] \/ listeners s a = [k] ->
     listeners s (f a) = [] \/ listeners s (f a) = [k]) ->
  maintains own_listeners (modify p f).
Proof.
  intros Hf w Hw k a s. rewrite modify_world. cbn [spawned].
  rewrite list_lookup_alter. destruct (decide (p = k)) as [->|N].
  - destruct (spawned w !! k) as [a0|] eqn:E; [|done]. simpl.
    intros [= <-]. apply Hf. by apply (Hw k).
  - apply Hw.
Qed.

Lemma own_listeners_spawned w w' :
  spawned w' = spawned w -> own_listeners w -> own_listeners w'.
Proof. unfold own_listeners. by intros ->. Qed.

Lemma own_listeners_execute args cb : maintains own_listeners (execute args cb).
Proof.
  intros w Hw. rewrite execute_world. destruct (process w); [done|].
  intros k a s. unfold started. cbn [spawned].
  intros H. apply lookup_app_Some in H as [H|[Hk H]].
  - by apply (Hw k).
  - destruct (k - length (spawned w)) as [|n] eqn:En; [|by destruct n].
    injection H as <-. assert (k = length (spawned w)) as -> by lia.
    right. by destruct s.
Qed.

Lemma own_listeners_removeListener s l :
  maintains own_listeners (removeListener s l).
Proof.
  intros w Hw. rewrite removeListener_world. destruct (process w) as [p|]; [|done].
  apply own_listeners_modify; [|done].
  intros a s' k H. destruct s, s'; simpl in *; auto using remove_listener_own.
Qed.

Lemma own_listeners_reachable_from cfg evs :
  maintains own_listeners (run cfg evs).
Proof.
  apply maintains_run.
  - apply own_listeners_execute.
  - apply own_listeners_removeListener.
  - intros k code w Hw. rewrite resolve_world.
    apply own_listeners_modify; [|done].
    intros a s j H. by destruct (completion a), s.
  - intros k err w Hw. rewrite reject_world.
    apply own_listeners_modify; [|done].
    intros a s j H. by destruct (completion a), s.
  - intros p sig w Hw. rewrite kill_world.
    apply own_listeners_modify; [|done]. intros a s j H. by destruct s.
  - intros k. apply own_listeners_modify. intros a s j H. by destruct s.
  - intros w Hw. by apply (own_listeners_spawned w).
  - intros w Hw. by apply (own_listeners_spawned w).
  - intros l w Hw. by apply (own_listeners_spawned w).
Qed.

(** X11.  In every state a controller can reach, by any calls and events,
    each output stream of each child it ever spawned carries at most one
    'data' listener, the one [execute] attached to that child: listeners do
    not accumulate over play/stop cycles. *)
Theorem listeners_never_accumulate (cfg : Config) (w : World) (k : pid)
    (a : Activation) :
  reachable cfg w ->
  spawned w !! k = Some a ->
  (stdout_listeners a = [] \/ stdout_listeners a = [k]) /\
  (stderr_listeners a = [] \/ stderr_listeners a = [k]).
Proof.
  intros [evs <-] Ha.
  assert (H : own_listeners (world_of (run cfg evs constructor))).
  { apply own_listeners_reachable_from. by intros j b s. }
  split; [apply (H k a Stdout Ha) | apply (H k a Stderr Ha)].
Qed.

Lemma listeners_never_accumulate_witness :
  (stdout_listeners (fresh 0 (sound_args sound_cfg "intro.mp3" false) SoundDefault) = [] \/
   stdout_listeners (fresh 0 (sound_args sound_cfg "intro.mp3" false) SoundDefault) = [0]).
Proof.
  exact (proj1 (listeners_never_accumulate sound_cfg playing 0 _
                  (ex_intro _ [CallPlay "intro.mp3" false] eq_refl) eq_refl)).
Defined.

(** ** Children only age *)

Lemma ages_refl a : ages a a.
Proof. repeat split; auto. exists []. by rewrite app_nil_r. Qed.

Lemma ages_trans a b c : ages a b -> ages b c -> ages a c.
Proof.
  intros (A1 & A2 & A3 & A4 & [m1 A5]) (B1 & B2 & B3 & B4 & [m2 B5]).
  repeat split.
  - by rewrite B1.
  - by rewrite B2.
  - intros H. rewrite <- (A3 H). apply B3. by rewrite (A3 H).
  - auto.
  - exists (m1 ++ m2). by rewrite B5, A5, app_assoc.
Qed.

Lemma later_refl w : later w w.
Proof. intros k a H. exists a. split; [done|apply ages_refl]. Qed.

Lemma later_trans w1 w2 w3 : later w1 w2 -> later w2 w3 -> later w1 w3.
Proof.
  intros H12 H23 k a H. destruct (H12 k a H) as (b & Hb & Hab).
  destruct (H23 k b Hb) as (c & Hc & Hbc). exists c. split; [done|].
  by apply (ages_trans a b c).
Qed.

Lemma later_spawned w w' : spawned w' = spawned w -> later w w'.
Proof. intros E k a H. exists a. rewrite E. split; [done|apply ages_refl]. Qed.

Lemma later_modify p f w :
  (forall a, ages a (f a)) -> later w (world_of (modify p f w)).
Proof.
  intros Hf k a H. rewrite modify_world. cbn [spawned].
  rewrite list_lookup_alter. destruct (decide (p = k)) as [->|N].
  - rewrite H. simpl. eauto.
  - exists a. split; [done|apply ages_refl].
Qed.

Lemma ages_settle c a :
  ages a (match completion a with
          | Pending => with_completion c a
          | _ => a
          end).
Proof.
  destruct (completion a) eqn:E; try apply ages_refl.
  repeat split; simpl; auto.
  - intros H. by rewrite E in H.
  - exists []. by rewrite app_nil_r.
Qed.

Lemma ages_listeners s f a : ages a (with_listeners s f a).
Proof.
  destruct s; repeat split; simpl; auto; exists []; by rewrite app_nil_r.
Qed.

Lemma later_execute args cb w : later w (world_of (execute args cb w)).
Proof.
  rewrite execute_world. destruct (process w); [apply later_refl|].
  intros k a H. exists a. split; [|apply ages_refl].
  unfold started. cbn [spawned]. by apply lookup_app_l_Some.
Qed.

Lemma later_step_of (w0 : World) {A} (c : M A) :
  (forall w, later w (world_of (c w))) -> maintains (later w0) c.
Proof. intros H w Hw. by apply (later_trans w0 w). Qed.

Lemma later_run cfg evs w : later w (world_of (run cfg evs w)).
Proof.
  apply (maintains_run (later w)); try (intros; apply later_step_of; intros w1).
  - apply later_execute.
  - rewrite removeListener_world. destruct (process w1); [|apply later_refl].
    apply later_modify. intros a. apply ages_listeners.
  - rewrite resolve_world. apply later_modify. intros a. apply ages_settle.
  - rewrite reject_world. apply later_modify. intros a. apply ages_settle.
  - rewrite kill_world. apply later_modify. intros a.
    repeat split; simpl; eauto.
  - apply later_modify. intros a. repeat split; simpl; auto.
    exists []. by rewrite app_nil_r.
  - by apply later_spawned.
  - by apply later_spawned.
  - by apply later_spawned.
  - apply later_refl.
Qed.

(** X12.  Whatever calls and events follow, a child the supervisor has
    spawned is never forgotten, its arguments and its exit callback never
    change, and its completion signal settles at most once: once it is
    fulfilled or rejected, no later 'exit', 'error' or call changes the
    outcome. *)
Theorem signals_settle_once (cfg : Config) (evs : list Event) (w : World)
    (k : pid) (a : Activation) :
  spawned w !! k = Some a ->
  exists a',
    spawned (world_of (run cfg evs w)) !! k = Some a' /\
    spawnargs a' = spawnargs a /\
    after a' = after a /\
    (completion a <> Pending -> completion a' = completion a).
Proof.
  intros H. destruct (later_run cfg evs w k a H) as (a' & Ha' & A1 & A2 & A3 & _).
  by exists a'.
Qed.

Lemma signals_settle_once_witness :
  exists a',
    spawned (world_of (run sound_cfg [OnError 0 "Error: write EPIPE"; CallStop; Tick]
                         stream_ended)) !! 0 = Some a' /\
    completion a' = Fulfilled (Some 0%Z).
Proof.
  destruct (signals_settle_once sound_cfg
              [OnError 0 "Error: write EPIPE"; CallStop; Tick] stream_ended 0 _
              eq_refl) as (a' & H1 & _ & _ & H4).
  exists a'. split; [exact H1|]. apply H4. discriminate.
Defined.

(** ** The steps of a stop *)

Lemma bind_normal {A B} (c : M A) (k : A -> M B) w a w1 t1 :
  c w = (Normal a, w1, t1) ->
  bind c k w = (let '(r, w2, t2) := k a w1 in (r, w2, t1 ++ t2)).
Proof. intros E. unfold bind. by rewrite E. Qed.

Lemma stop_process_held w p q :
  process w = Some p ->
  promise w = Some q ->
  stop_process w =
    (Normal (StopAwaiting q),
     {| process := Some p; promise := Some q;
        spawned := alter (with_signal "SIGTERM") p (spawned w);
        stopping := stopping w ++ [q] |},
     [Kill p "SIGTERM";
      Log ("Signal sended to process : " +++
           Js.string_of_bool match spawned w !! p with
                             | Some a => negb (exited a)
                             | None => false
                             end)]).
Proof.
  intros Hp Hq. destruct w as [p' q' sp st]. simpl in *. by subst.
Qed.

Lemma drain_idle w : stopping w = [] -> drain w = (Normal tt, w, []).
Proof. intros H. destruct w as [p q sp st]. simpl in H. by subst. Qed.

Lemma drain_waiting w q a :
  stopping w = [q] ->
  spawned w !! q = Some a ->
  completion a = Pending ->
  drain w = (Normal tt, w, []).
Proof.
  intros Hs Ha Hc. destruct w as [p pr sp st]. simpl in *. subst st.
  cbv [drain bind get resume_settled stopping spawned]. rewrite Ha.
  cbn [fmap option_fmap option_map]. by rewrite Hc.
Qed.

Lemma drain_settled w q a :
  stopping w = [q] ->
  spawned w !! q = Some a ->
  is_settled (completion a) = true ->
  drain w =
    (Normal tt, idle_with (spawned w),
     stop_log (completion a) ++ [SetProcess None; SetPromise None]).
Proof.
  intros Hs Ha Hc. destruct w as [p pr sp st]. simpl in *. subst st.
  cbv [drain bind get resume_settled stopping spawned]. rewrite Ha.
  cbn [fmap option_fmap option_map]. by destruct (completion a).
Qed.

Lemma alter_at {A} (f : A -> A) (l : list A) (i : nat) (x : A) :
  l !! i = Some x -> alter f i l = <[i := f x]> l.
Proof.
  intros H. rewrite list_insert_alter. apply list_alter_ext; [|done].
  intros y Hy. rewrite H in Hy. by injection Hy as <-.
Qed.

Lemma step_stop_held cfg w p q :
  process w = Some p ->
  promise w = Some q ->
  step cfg CallStop w =
    (Normal tt,
     {| process := Some p; promise := Some q;
        spawned := alter (with_signal "SIGTERM") p (spawned w);
        stopping := stopping w ++ [q] |},
     [Kill p "SIGTERM";
      Log ("Signal sended to process : " +++
           Js.string_of_bool match spawned w !! p with
                             | Some a => negb (exited a)
                             | None => false
                             end)]).
Proof.
  intros Hp Hq. simpl. unfold task. by rewrite (stop_process_held w p q).
Qed.

(** The 'exit' of the held child with a code other than 0, while one
    [stop_process] call awaits it. *)
Lemma step_exit_awaited cfg w k a code :
  process w = Some k ->
  stopping w = [k] ->
  spawned w !! k = Some a ->
  completion a = Pending ->
  exited a = false ->
  Js.loose_eq_zero code = false ->
  step cfg (OnExit k code) w =
    (Normal tt,
     idle_with
       (settled_with (Fulfilled code) k
          (detached k k (alter with_exited k (spawned w)))),
     [exit_log code; RemoveListener k Stdout k; RemoveListener k Stderr k;
      Resolve k code] ++
     stop_log (Fulfilled code) ++ [SetProcess None; SetPromise None]).
Proof.
  intros Hp Hs Ha Hc He Hz. cbn [step].
  erewrite bind_normal by (by eapply drain_waiting).
  erewrite bind_normal.
  2:{ unfold bind at 1, get. rewrite Ha, He.
      erewrite bind_normal by reflexivity.
      unfold task. erewrite exit_handler_nonzero by done. reflexivity. }
  cbn [world_of fst snd process promise spawned stopping].
  set (sp := settled_with _ _ _).
  assert (Hk : sp !! k =
    Some (with_completion (Fulfilled code)
            (with_listeners Stderr (Js.remove_listener k)
               (with_listeners Stdout (Js.remove_listener k) (with_exited a))))).
  { unfold sp. erewrite settled_lookup.
    2:{ apply detached_lookup. by rewrite list_lookup_alter_eq, Ha. }
    simpl. by rewrite Hc. }
  erewrite drain_settled; [|done|exact Hk|done]. reflexivity.
Qed.

(** X13.  The stop of a running process.  When the supervisor holds a
    process that has not exited, with its signal pending and no stop under
    way, [stop_process] followed by the exit of the process with a code
    other than 0 (or with none, as when the signal kills it) brings the
    supervisor back to idle: both fields cleared, no call suspended,
    nothing spawned and nothing thrown; the child has got SIGTERM, lost its
    two listeners, and its signal is fulfilled with the code. *)
Theorem stop_then_exit_is_idle (cfg : Config) (w : World) (k : pid)
    (a : Activation) (code : option Z) :
  process w = Some k ->
  promise w = Some k ->
  stopping w = [] ->
  spawned w !! k = Some a ->
  completion a = Pending ->
  exited a = false ->
  Js.loose_eq_zero code = false ->
  run cfg [CallStop; OnExit k code] w =
    (Normal tt,
     idle_with (<[k := stopped k true (Fulfilled code) a]> (spawned w)),
     [Kill k "SIGTERM"; Log "Signal sended to process : true";
      exit_log code; RemoveListener k Stdout k; RemoveListener k Stderr k;
      Resolve k code; exit_log code; SetProcess None; SetPromise None]).
Proof.
  intros Hp Hq Hs Ha Hc He Hz. cbn [run].
  erewrite bind_normal by (by apply step_stop_held).
  erewrite bind_normal.
  2:{ eapply (step_exit_awaited cfg _ k (with_signal "SIGTERM" a)); try done.
      - cbn [stopping]. by rewrite Hs.
      - cbn [spawned]. by rewrite list_lookup_alter_eq, Ha. }
  cbn [spawned]. rewrite Ha, He. unfold ret, idle_with. f_equal. f_equal. f_equal.
  unfold settled_with, detached. rewrite !list_alter_alter_eq.
  rewrite (alter_at _ _ _ _ Ha). f_equal. cbn. by rewrite Hc.
Qed.

Lemma stop_then_exit_is_idle_witness :
  world_of (run sound_cfg [CallStop; OnExit 0 None] playing)
    = idle_with [stopped 0 true (Fulfilled None)
                   (fresh 0 (sound_args sound_cfg "intro.mp3" false) SoundDefault)].
Proof.
  exact (f_equal world_of
           (stop_then_exit_is_idle sound_cfg playing 0 _ None
              eq_refl eq_refl eq_refl eq_refl eq_refl eq_refl eq_refl)).
Defined.

(** ** After a process error *)




(** ** Which calls can throw *)

(** X15.  [play] never throws, in any state, on either controller, and on
    a reachable supervisor [stop_process] does not throw either.  The one
    public method that throws is [play_stdin], and it does exactly when a
    process is active; on an idle supervisor it returns the input stream of
    the child it spawned. *)
Theorem only_play_stdin_throws (cfg : Config) (w : World) :
  (forall pathname loop,
     result_of (SoundContext.play cfg pathname loop w) = Normal tt /\
     result_of (VideoContext.play cfg pathname loop w) = Normal tt /\
     result_of (play cfg pathname loop w) = Normal tt) /\
  (reachable cfg w -> exists s, result_of (stop_process w) = Normal s) /\
  (result_of (SoundContext.play_stdin cfg w) = Throws TypeError <->
   process w <> None) /\
  (process w = None ->
   result_of (SoundContext.play_stdin cfg w) = Normal (length (spawned w))).
Proof.
  split; [|split; [|split]].
  - intros pathname loop. split; [|split].
    + rewrite sound_play_eq. by destruct (execute _ _ w) as [[r w1] t].
    + destruct (existsSync cfg pathname) eqn:E.
      * rewrite video_play_found by done. by destruct (execute _ _ w) as [[r w1] t].
      * by rewrite video_play_missing.
    + apply play_normal.
  - apply stop_process_returns.
  - destruct (process w) as [k|] eqn:E.
    + unfold SoundContext.play_stdin, bind. rewrite (execute_busy _ _ _ _ E).
      by split.
    + rewrite play_stdin_idle by done. split; [discriminate|done].
  - apply play_stdin_idle.
Qed.

(** ** After a clip has ended *)

Lemma call_after_stopping cfg cb w :
  process w = None ->
  stopping (world_of (call_after cfg cb w)) = stopping w.
Proof.
  intros H. rewrite call_after_idle by done.
  by destruct cb; [| destruct (existsSync cfg "../branding.mjpeg") |].
Qed.

Lemma step_exit_zero cfg w k a code :
  process w = Some k ->
  stopping w = [] ->
  spawned w !! k = Some a ->
  exited a = false ->
  Js.loose_eq_zero code = true ->
  world_of (step cfg (OnExit k code) w) =
    let w1 := {| process := None; promise := promise w;
                 spawned := detached k k (alter with_exited k (spawned w));
                 stopping := [] |} in
    let w2 := world_of (call_after cfg (after a) w1) in
    {| process := process w2; promise := promise w2;
       spawned := settled_with (Fulfilled code) k (spawned w2);
       stopping := stopping w2 |}.
Proof.
  intros Hp Hs Ha He Hz. cbn [step].
  erewrite bind_world_normal by (by apply drain_idle).
  assert (E : exists t,
    (let* w0 := get in
     match spawned w0 !! k with
     | Some a0 =>
         if exited a0 then ret tt
         else modify k with_exited ;; task (exit_handler cfg k (after a0) code)
     | None => ret tt
     end) w =
    (Normal tt,
     let w1 := {| process := None; promise := promise w;
                  spawned := detached k k (alter with_exited k (spawned w));
                  stopping := [] |} in
     let w2 := world_of (call_after cfg (after a) w1) in
     {| process := process w2; promise := promise w2;
        spawned := settled_with (Fulfilled code) k (spawned w2);
        stopping := stopping w2 |}, t)).
  { unfold bind at 1, get. rewrite Ha, He.
    erewrite bind_normal by reflexivity. unfold task.
    erewrite exit_handler_zero by done. cbv zeta.
    cbn [world_of fst snd process promise spawned stopping]. rewrite Hs.
    edestruct (call_after_idle_trace cfg (after a)) as (w2 & t & -> & _ & _);
      [reflexivity|].
    eexists. reflexivity. }
  destruct E as [t E]. erewrite bind_world_normal by exact E.
  cbv zeta. rewrite drain_idle; [done|]. cbn [stopping].
  by rewrite call_after_stopping.
Qed.

(** X16.  The fallback occupies the slot.  When a clip started by the
    audio controller's [play] ends with code 0, nobody having called stop,
    the supervisor is busy again at once: the slot and the signal are those
    of a new child playing the silence asset without loop, the signal of
    the ended child is fulfilled with the code, and a [play] made then is
    refused.  For a stream started by [play_stdin] the same exit leaves the
    slot empty and the old signal in place. *)
Theorem fallback_occupies_slot (cfg : Config) (w : World) (k : pid)
    (a : Activation) (code : option Z) :
  process w = Some k ->
  promise w = Some k ->
  stopping w = [] ->
  spawned w !! k = Some a ->
  completion a = Pending ->
  exited a = false ->
  Js.loose_eq_zero code = true ->
  let w' := world_of (step cfg (OnExit k code) w) in
  let n := length (spawned w) in
  (completion <$> spawned w' !! k = Some (Fulfilled code)) /\
  (after a = SoundDefault ->
   slots w' = (Some n, Some n) /\
   spawned w' !! n
     = Some (fresh n (sound_args cfg "../silence.opus" false) SoundDefault) /\
   forall pathname loop,
     world_of (play cfg pathname loop w') = w' /\
     spawns (trace_of (play cfg pathname loop w')) = []) /\
  (after a = StdinSequenceEnded ->
   slots w' = (None, Some k) /\ length (spawned w') = n).
Proof.
  intros Hp Hq Hs Ha Hc He Hz w' n. subst w' n.
  rewrite (step_exit_zero cfg w k a code Hp Hs Ha He Hz). cbv zeta.
  rewrite call_after_idle by done.
  set (sp1 := detached k k (alter with_exited k (spawned w))).
  assert (H1 : sp1 !! k =
    Some (with_listeners Stderr (Js.remove_listener k)
            (with_listeners Stdout (Js.remove_listener k) (with_exited a)))).
  { unfold sp1. apply detached_lookup. by rewrite list_lookup_alter_eq, Ha. }
  assert (Hlen : length sp1 = length (spawned w)).
  { unfold sp1, detached. by rewrite !length_alter. }
  assert (Hk : k < length sp1) by (by eapply lookup_lt_Some).
  split; [|split].
  - destruct (after a); [| destruct (existsSync cfg "../branding.mjpeg") |];
      cbn [world_of fst snd spawned started]; unfold settled_with;
      rewrite list_lookup_alter_eq, ?(lookup_app_l_Some _ _ _ _ H1), ?H1;
      simpl; by rewrite Hc.
  - intros ->. cbn [world_of fst snd spawned started process promise slots].
    rewrite Hlen. split; [done|]. split.
    + unfold settled_with. rewrite list_lookup_alter_ne by lia.
      rewrite <- Hlen at 1. by rewrite lookup_snoc.
    + intros pathname loop. by eapply play_busy.
  - intros ->. cbn [world_of fst snd spawned process promise slots].
    rewrite Hq. split; [done|]. unfold settled_with. by rewrite length_alter.
Qed.

Lemma fallback_occupies_slot_witness :
  slots (world_of (step sound_cfg (OnExit 0 (Some 0%Z)) playing)) = (Some 1, Some 1).
Proof.
  destruct (fallback_occupies_slot sound_cfg playing 0 _ (Some 0%Z)
              eq_refl eq_refl eq_refl eq_refl eq_refl eq_refl eq_refl)
    as (_ & H & _).
  exact (proj1 (H eq_refl)).
Defined.

(** ** Overlapping stops *)

Lemma run_app cfg evs1 evs2 w :
  world_of (run cfg (evs1 ++ evs2) w)
    = world_of (run cfg evs2 (world_of (run cfg evs1 w))).
Proof.
  revert w. induction evs1 as [|ev evs1 IH]; intros w; [done|].
  rewrite <- app_comm_cons.
  rewrite (proj1 (run_cons cfg ev (evs1 ++ evs2) w)).
  rewrite (proj1 (run_cons cfg ev evs1 w)). apply IH.
Qed.

Lemma stops_world cfg n w k :
  process w = Some k ->
  promise w = Some k ->
  world_of (run cfg (repeat CallStop n) w) =
    {| process := Some k; promise := Some k;
       spawned := alter (with_signals (repeat "SIGTERM" n)) k (spawned w);
       stopping := stopping w ++ repeat k n |}.
Proof.
  revert w. induction n as [|n IH]; intros w Hp Hq.
  - destruct w as [p q sp st]. simpl in *. subst. unfold world_of. simpl.
    rewrite app_nil_r. f_equal. symmetry. apply list_alter_id.
    intros a. destruct a. unfold with_signals. simpl. by rewrite app_nil_r.
  - cbn [repeat]. rewrite (proj1 (run_cons cfg CallStop (repeat CallStop n) w)).
    rewrite (step_stop_held cfg w k k Hp Hq). cbn [world_of fst snd].
    rewrite IH by done. cbn [spawned stopping]. f_equal.
    + rewrite list_alter_alter_eq. apply list_alter_ext; [|done].
      intros a _. unfold with_signals, with_signal. simpl.
      by rewrite <- app_assoc.
    + by rewrite <- app_assoc.
Qed.

Lemma stop_resume_world o w :
  world_of (stop_resume o w) =
    {| process := None; promise := None;
       spawned := spawned w; stopping := stopping w |}.
Proof. by destruct o. Qed.

Lemma resume_settled_waiting qs w :
  Forall (fun q => completion <$> spawned w !! q = Some Pending) qs ->
  resume_settled qs w = (Normal qs, w, []).
Proof.
  intros H. induction H as [|q qs Hq _ IH]; [done|].
  cbn [resume_settled]. unfold bind at 1, get. rewrite Hq.
  unfold bind. by rewrite IH.
Qed.

Lemma stop_resume_normal o w :
  exists t,
    stop_resume o w =
      (Normal tt,
       {| process := None; promise := None;
          spawned := spawned w; stopping := stopping w |}, t).
Proof. destruct o; eexists; reflexivity. Qed.

Lemma resume_settled_cons q rest :
  resume_settled (q :: rest) =
    (let* w := get in
     match completion <$> spawned w !! q with
     | Some Pending | None =>
         let* still := resume_settled rest in
         ret (q :: still)
     | Some outcome =>
         stop_resume outcome ;;
         resume_settled rest
     end).
Proof. reflexivity. Qed.

Lemma resume_settled_same n w q a :
  spawned w !! q = Some a ->
  is_settled (completion a) = true ->
  exists t,
    resume_settled (repeat q (S n)) w =
      (Normal [],
       {| process := None; promise := None;
          spawned := spawned w; stopping := stopping w |}, t).
Proof.
  revert w. induction n as [|n IH]; intros w Ha Hs;
    cbn [repeat]; rewrite resume_settled_cons; unfold bind at 1, get;
    rewrite Ha; cbn [fmap option_fmap option_map];
    destruct (stop_resume_normal (completion a) w) as [t1 E1].
  - destruct (completion a) as [|code|err]; [discriminate Hs| |];
      rewrite (bind_normal _ _ _ _ _ _ E1); eexists; reflexivity.
  - destruct (IH {| process := None; promise := None;
                    spawned := spawned w; stopping := stopping w |} Ha Hs)
      as [t Ht]. cbn [spawned stopping repeat] in Ht.
    destruct (completion a) as [|code|err]; [discriminate Hs| |];
      rewrite (bind_normal _ _ _ _ _ _ E1), Ht; eexists; reflexivity.
Qed.

Lemma drain_settled_same n w q a :
  stopping w = repeat q (S n) ->
  spawned w !! q = Some a ->
  is_settled (completion a) = true ->
  world_of (drain w) = idle_with (spawned w).
Proof.
  intros Hs Ha Hc. destruct (resume_settled_same n w q a Ha Hc) as [t Ht].
  unfold drain. rewrite (bind_world_normal _ _ _ _ _ _ (eq_refl : get w = _)).
  rewrite Hs. by rewrite (bind_world_normal _ _ _ _ _ _ Ht).
Qed.

Lemma step_exit_awaited_many cfg n w k a code :
  process w = Some k ->
  stopping w = repeat k (S n) ->
  spawned w !! k = Some a ->
  completion a = Pending ->
  exited a = false ->
  Js.loose_eq_zero code = false ->
  world_of (step cfg (OnExit k code) w) =
    idle_with
      (settled_with (Fulfilled code) k
         (detached k k (alter with_exited k (spawned w)))).
Proof.
  intros Hp Hs Ha Hc He Hz. cbn [step].
  assert (D1 : drain w = (Normal tt, w, [])).
  { unfold drain, bind at 1, get. rewrite Hs.
    erewrite bind_normal.
    2:{ apply resume_settled_waiting. apply List.Forall_forall.
        intros q Hq. apply repeat_spec in Hq as ->. rewrite Ha. simpl.
        by rewrite Hc. }
    destruct w as [p pr sp st]. simpl in *. by subst. }
  erewrite bind_world_normal by exact D1.
  erewrite bind_world_normal.
  2:{ unfold bind at 1, get. rewrite Ha, He.
      erewrite bind_normal by reflexivity.
      unfold task. erewrite exit_handler_nonzero by done. reflexivity. }
  cbn [process promise spawned stopping].
  set (sp := settled_with _ _ _).
  assert (Hk : sp !! k =
    Some (with_completion (Fulfilled code)
            (with_listeners Stderr (Js.remove_listener k)
               (with_listeners Stdout (Js.remove_listener k) (with_exited a))))).
  { unfold sp. erewrite settled_lookup.
    2:{ apply detached_lookup. by rewrite list_lookup_alter_eq, Ha. }
    simpl. by rewrite Hc. }
  erewrite (drain_settled_same n _ k);
    [reflexivity | exact Hs | exact Hk | reflexivity].
Qed.

(** X17.  Overlapping stops all resolve.  However many [stop_process]
    calls are made on a held running process before it exits, each sends
    SIGTERM and waits for the same signal, and the exit with a code other
    than 0 resumes every one of them: the supervisor ends idle with no call
    left suspended. *)
Theorem overlapping_stops_resolve (cfg : Config) (n : nat) (w : World)
    (k : pid) (a : Activation) (code : option Z) :
  process w = Some k ->
  promise w = Some k ->
  stopping w = [] ->
  spawned w !! k = Some a ->
  completion a = Pending ->
  exited a = false ->
  Js.loose_eq_zero code = false ->
  world_of (run cfg (repeat CallStop (S n) ++ [OnExit k code]) w) =
    idle_with
      (<[k := {| spawnargs := spawnargs a;
                 stdout_listeners := Js.remove_listener k (stdout_listeners a);
                 stderr_listeners := Js.remove_listener k (stderr_listeners a);
                 signals := signals a ++ repeat "SIGTERM" (S n);
                 exited := true;
                 completion := Fulfilled code;
                 after := after a |}]> (spawned w)).
Proof.
  intros Hp Hq Hs Ha Hc He Hz.
  rewrite run_app, (stops_world cfg (S n) w k) by done.
  rewrite (proj1 (run_cons cfg (OnExit k code) [] _)).
  erewrite (step_exit_awaited_many cfg n _ k
              (with_signals (repeat "SIGTERM" (S n)) a)); try done.
  - cbn [run ret world_of fst snd spawned]. unfold idle_with. f_equal.
    unfold settled_with, detached. rewrite !list_alter_alter_eq.
    rewrite (alter_at _ _ _ _ Ha). f_equal. cbn. by rewrite Hc.
  - cbn [stopping]. by rewrite Hs.
  - cbn [spawned]. by rewrite list_lookup_alter_eq, Ha.
Qed.

Lemma overlapping_stops_resolve_witness :
  stopping (world_of (run sound_cfg (repeat CallStop 3 ++ [OnExit 0 (Some 255%Z)])
                        playing)) = [].
Proof.
  exact (f_equal stopping
           (overlapping_stops_resolve sound_cfg 2 playing 0 _ (Some 255%Z)
              eq_refl eq_refl eq_refl eq_refl eq_refl eq_refl eq_refl)).
Defined.

(** ** The filter of the diagnostic stream *)

Lemma strip_prefix_prefix p s tail :
  Js.strip_prefix p s = Some tail -> String.prefix p s = true.
Proof.
  revert s. induction p as [|a p IH]; intros s H.
  - by destruct s.
  - destruct s as [|b s]; [discriminate H|]. simpl in *.
    destruct (Ascii.eqb_spec a b) as [->|N]; [|discriminate H].
    destruct (Ascii.ascii_dec b b) as [_|N]; [|done]. by apply IH.
Qed.

Lemma strip_prefix_append p s tail more :
  Js.strip_prefix p s = Some tail ->
  Js.strip_prefix p (s +++ more) = Some (tail +++ more).
Proof.
  revert s. induction p as [|a p IH]; intros s H.
  - simpl in H. injection H as ->. by destruct (tail +++ more).
  - destruct s as [|b s]; [discriminate H|]. rewrite append_cons. simpl in *.
    destruct (Ascii.eqb a b); [|discriminate H]. by apply IH.
Qed.

Lemma span_append c s run a tail more :
  Js.span c s = (run, String a tail) ->
  Js.span c (s +++ more) = (run, String a tail +++ more).
Proof.
  revert run. induction s as [|b s IH]; intros run H; [discriminate H|].
  rewrite append_cons. simpl in *. destruct (c b) eqn:Eb.
  - destruct (Js.span c s) as [run' tail'] eqn:Es. injection H as <- ->.
    by rewrite (IH run' eq_refl).
  - injection H as <- <- <-. by rewrite append_cons.
Qed.

Lemma extends_lit p k : extends k -> extends (Js.lit p k).
Proof.
  intros Hk s more H. unfold Js.lit in *.
  destruct (Js.strip_prefix p s) as [tail|] eqn:E; [|discriminate H].
  rewrite (strip_prefix_append _ _ _ more E). by apply Hk.
Qed.

Lemma strict_lit a p k : extends k -> strict (Js.lit (String a p) k).
Proof. intros Hk. split; [done|by apply extends_lit]. Qed.

Lemma strict_plus c k : strict k -> strict (Js.plus c k).
Proof.
  intros [H0 Hk]. split; [done|]. intros s more H. unfold Js.plus in *.
  destruct (Js.span c s) as [[|b run] tail] eqn:E; [discriminate H|].
  destruct tail as [|a tail]; [by rewrite H0 in H|].
  rewrite (span_append _ _ _ _ _ more E). by apply Hk.
Qed.

Lemma strict_star c k : strict k -> strict (Js.star c k).
Proof.
  intros [H0 Hk]. split; [done|]. intros s more H. unfold Js.star in *.
  destruct (Js.span c s) as [run tail] eqn:E. simpl in H.
  destruct tail as [|a tail]; [by rewrite H0 in H|].
  rewrite (span_append _ _ _ _ _ more E). by apply Hk.
Qed.

Lemma progress_line_extends : extends progress_line.
Proof.
  unfold progress_line. apply extends_lit.
  apply strict_star, strict_plus, strict_plus, strict_lit.
  apply strict_star, strict_plus, strict_plus, strict_lit.
  by intros s more _.
Qed.

(** X18.  The listener of the diagnostic stream prints a chunk as it is or
    not at all.  It drops a chunk only when the chunk is blank or starts
    with [frame=], so no other diagnostic of the encoder is lost; and a
    chunk that begins with a progress report is dropped whatever follows
    the report.  The listener of the output stream prints every chunk. *)
Theorem stderr_filter (data : string) :
  (stderrListener data = [] \/
   stderrListener data = [Log ("[ffmpeg stderr] " +++ data)]) /\
  (stderrListener data = [] ->
   Js.trim data = EmptyString \/ String.prefix "frame=" data = true) /\
  (progress_line data = true ->
   forall more, stderrListener (data +++ more) = []) /\
  stdoutListener data = [Log ("[ffmpeg stdout] " +++ data)].
Proof.
  unfold stderrListener. split; [|split; [|split]].
  - destruct (Js.truthy (Js.trim data) && negb (progress_line data)); auto.
  - destruct (Js.truthy (Js.trim data)) eqn:Et.
    + destruct (progress_line data) eqn:Ep; [|discriminate]. intros _. right.
      unfold progress_line, Js.lit in Ep.
      destruct (Js.strip_prefix "frame=" data) as [tail|] eqn:E; [|discriminate Ep].
      by apply (strip_prefix_prefix _ _ tail).
    + intros _. left. unfold Js.truthy in Et.
      destruct (String.eqb_spec (Js.trim data) EmptyString) as [E|N]; [done|].
      discriminate Et.
  - intros H more. rewrite (progress_line_extends data more H).
    by rewrite andb_false_r.
  - reflexivity.
Qed.
